(** * Verification of the tiktok_apirest socket hub and TikTok bridge

    Shallow embedding of
    - the socket hub adapter ([websocket-adapter]: envelope codec,
      registry, rooms, socket handles) used by [src/index.ts];
    - the application handlers installed in [io.on('connection')]
      ([src/index.ts]);
    - the TikTok live-connection manager ([src/platforms/tiktoklive.ts]). *)

From Stdlib Require Import ZArith Lia.
From stdpp Require Import base gmap sets list strings pretty.

Set Warnings "-register-all".


(* ================================================================= *)
(** ** Envelope codec *)

Module Codec.

(** JSON values exchanged on the wire (numbers restricted to integers). *)
Inductive json : Type :=
| JNull
| JBool (b : bool)
| JNum (z : Z)
| JStr (s : string)
| JArr (l : list json)
| JObj (kvs : list (string * json)).

(** JSON text, at the granularity of its lexemes: what [JSON.stringify]
    writes and [JSON.parse] reads. *)
Inductive token : Type :=
| TLBrace | TRBrace | TLBrack | TRBrack | TComma | TColon
| TNull | TTrue | TFalse | TNum (z : Z) | TStr (s : string).

Definition raw := list token.

(** [JSON.stringify] *)
Fixpoint stringify (v : json) : raw :=
  match v with
  | JNull => [TNull]
  | JBool true => [TTrue]
  | JBool false => [TFalse]
  | JNum z => [TNum z]
  | JStr s => [TStr s]
  | JArr l =>
      TLBrack ::
      (fix elems (l : list json) : raw :=
         match l with
         | [] => [TRBrack]
         | [x] => stringify x ++ [TRBrack]
         | x :: l' => stringify x ++ TComma :: elems l'
         end) l
  | JObj kvs =>
      TLBrace ::
      (fix members (kvs : list (string * json)) : raw :=
         match kvs with
         | [] => [TRBrace]
         | [(k, x)] => TStr k :: TColon :: stringify x ++ [TRBrace]
         | (k, x) :: kvs' => TStr k :: TColon :: stringify x ++ TComma :: members kvs'
         end) kvs
  end.

(** The separated element and member lists written by [stringify]. *)
Fixpoint ser_elems (l : list json) : raw :=
  match l with
  | [] => [TRBrack]
  | [x] => stringify x ++ [TRBrack]
  | x :: l' => stringify x ++ TComma :: ser_elems l'
  end.

Fixpoint ser_members (kvs : list (string * json)) : raw :=
  match kvs with
  | [] => [TRBrace]
  | [(k, x)] => TStr k :: TColon :: stringify x ++ [TRBrace]
  | (k, x) :: kvs' => TStr k :: TColon :: stringify x ++ TComma :: ser_members kvs'
  end.

(** Induction on JSON values through their nested lists. *)
Definition json_ind' (P : json -> Prop)
  (Hnull : P JNull) (Hbool : forall b, P (JBool b)) (Hnum : forall z, P (JNum z))
  (Hstr : forall s, P (JStr s))
  (Harr : forall l, Forall P l -> P (JArr l))
  (Hobj : forall kvs, Forall (fun kv => P kv.2) kvs -> P (JObj kvs)) :
  forall v, P v :=
  fix go v :=
    match v with
    | JNull => Hnull
    | JBool b => Hbool b
    | JNum z => Hnum z
    | JStr s => Hstr s
    | JArr l =>
        Harr l ((fix go_l (l : list json) : Forall P l :=
                   match l with
                   | [] => @List.Forall_nil _ P
                   | x :: l' => @List.Forall_cons _ P x l' (go x) (go_l l')
                   end) l)
    | JObj kvs =>
        Hobj kvs ((fix go_m (kvs : list (string * json)) : Forall (fun kv => P kv.2) kvs :=
                     match kvs with
                     | [] => @List.Forall_nil _ _
                     | (k, x) :: kvs' => @List.Forall_cons _ (fun kv => P kv.2) (k, x) kvs' (go x) (go_m kvs')
                     end) kvs)
    end.

(** Array elements after [[]: [pv] parses one value. *)
Fixpoint parse_elems (pv : raw -> option (json * raw)) (n : nat) (ts : raw)
  : option (list json * raw) :=
  match n with
  | O => None
  | S n' =>
      match pv ts with
      | Some (x, TRBrack :: r) => Some ([x], r)
      | Some (x, TComma :: r) =>
          match parse_elems pv n' r with
          | Some (l, r') => Some (x :: l, r')
          | None => None
          end
      | _ => None
      end
  end.

(** Object members after [{]. *)
Fixpoint parse_members (pv : raw -> option (json * raw)) (n : nat) (ts : raw)
  : option (list (string * json) * raw) :=
  match n with
  | O => None
  | S n' =>
      match ts with
      | TStr k :: TColon :: ts' =>
          match pv ts' with
          | Some (x, TRBrace :: r) => Some ([(k, x)], r)
          | Some (x, TComma :: r) =>
              match parse_members pv n' r with
              | Some (kvs, r') => Some ((k, x) :: kvs, r')
              | None => None
              end
          | _ => None
          end
      | _ => None
      end
  end.

(** [JSON.parse], a recursive-descent parser; [fuel] bounds the nesting. *)
Fixpoint parse_value (fuel : nat) (ts : raw) : option (json * raw) :=
  match fuel with
  | O => None
  | S fuel' =>
      match ts with
      | TNull :: r => Some (JNull, r)
      | TTrue :: r => Some (JBool true, r)
      | TFalse :: r => Some (JBool false, r)
      | TNum z :: r => Some (JNum z, r)
      | TStr s :: r => Some (JStr s, r)
      | TLBrack :: TRBrack :: r => Some (JArr [], r)
      | TLBrack :: r =>
          match parse_elems (parse_value fuel') (length r) r with
          | Some (l, r') => Some (JArr l, r')
          | None => None
          end
      | TLBrace :: TRBrace :: r => Some (JObj [], r)
      | TLBrace :: r =>
          match parse_members (parse_value fuel') (length r) r with
          | Some (kvs, r') => Some (JObj kvs, r')
          | None => None
          end
      | _ => None
      end
  end.

Definition json_parse (ts : raw) : option json :=
  match parse_value (length ts) ts with
  | Some (v, []) => Some v
  | _ => None
  end.

(** Property read on a parsed object: the last occurrence of a key wins. *)
Fixpoint obj_get (k : string) (kvs : list (string * json)) : option json :=
  match kvs with
  | [] => None
  | (k', x) :: kvs' =>
      match obj_get k kvs' with
      | Some y => Some y
      | None => if String.eqb k k' then Some x else None
      end
  end.

(** The wire envelope [{ event, data }]; [None] for [data] is [undefined]. *)
Record envelope := mkEnvelope { ev_event : string; ev_data : option json }.

(** Modelled from the spec: the adapter's codec (section 4.1), missing from
    the sources. [encode] writes [{event, data}] with [JSON.stringify],
    which drops an [undefined] property. *)
Definition encode (e : envelope) : raw :=
  stringify (JObj (("event", JStr (ev_event e)) ::
                   match ev_data e with Some d => [("data", d)] | None => [] end)).

(** Modelled from the spec: [decode] fails when the text is not JSON or has
    no string [event] field. *)
Definition decode (ts : raw) : option envelope :=
  match json_parse ts with
  | Some (JObj kvs) =>
      match obj_get "event" kvs with
      | Some (JStr ev) => Some (mkEnvelope ev (obj_get "data" kvs))
      | _ => None
      end
  | _ => None
  end.

(** Modelled from the spec: the [data] of an [emit(event, ...args)]:
    the bare value for one argument, the ordered sequence otherwise. *)
Definition emit_data (args : list json) : json :=
  match args with
  | [a] => a
  | _ => JArr args
  end.

Definition emit_envelope (event : string) (args : list json) : envelope :=
  mkEnvelope event (Some (emit_data args)).

End Codec.

(* ================================================================= *)
(** ** Socket hub *)

(** Modelled from the spec: the hub adapter [io] of [src/websocket-adapter]
    is not among the sources (only [src/index.ts], its caller, is): the
    registry, room index, socket handles and lifecycle below follow
    sections 3, 4.2-4.6 of the spec. *)
Module Hub.
Import Codec.

(** Connection identifiers: generated from a counter, never reused. *)
Definition sock_id (n : nat) : string := "sock-" +:+ pretty n.

(** A socket handle: Open or Closed, and its ordered [on] registrations
    (event name, handler label). *)
Record socket := mkSocket { s_open : bool; s_handlers : list (string * nat) }.

Record hub := mkHub {
  sockets : gmap string socket;       (* every handle created, by id *)
  rooms : gmap string (gset string);  (* room index *)
  next_id : nat;
  outbox : list (string * raw);       (* frames written to transports, in order *)
  fired : list (string * nat)         (* [disconnect] handler invocations *)
}.

Definition hub_empty : hub := mkHub ∅ ∅ 0 [] [].

(** The Registry holds exactly the Open handles: [io.clients.get(id)]. *)
Definition clients_get (h : hub) (id : string) : option socket :=
  match sockets h !! id with
  | Some s => if s_open s then Some s else None
  | None => None
  end.

Definition is_open (h : hub) (id : string) : bool :=
  match sockets h !! id with Some s => s_open s | None => false end.

Definition is_closed (h : hub) (id : string) : bool :=
  match sockets h !! id with Some s => negb (s_open s) | None => false end.

(** [membersOf(room)] *)
Definition members (h : hub) (r : string) : gset string := default ∅ (rooms h !! r).

Definition set_sockets (h : hub) (m : gmap string socket) : hub :=
  mkHub m (rooms h) (next_id h) (outbox h) (fired h).
Definition set_rooms (h : hub) (m : gmap string (gset string)) : hub :=
  mkHub (sockets h) m (next_id h) (outbox h) (fired h).
Definition send_frames (h : hub) (fs : list (string * raw)) : hub :=
  mkHub (sockets h) (rooms h) (next_id h) (outbox h ++ fs) (fired h).

(** [register(transport)]: a fresh id, an Open handle with no handlers. *)
Definition handle_open (h : hub) : hub * string :=
  let id := sock_id (next_id h) in
  (mkHub (<[id := mkSocket true []]> (sockets h)) (rooms h) (S (next_id h))
         (outbox h) (fired h), id).

(** [socket.on(event, handler)]: appended to the ordered list. *)
Definition on (id ev : string) (lbl : nat) (h : hub) : hub :=
  match sockets h !! id with
  | Some s =>
      if s_open s
      then set_sockets h (<[id := mkSocket true (s_handlers s ++ [(ev, lbl)])]> (sockets h))
      else h
  | None => h
  end.

(** [socket.join(room)] *)
Definition join (id r : string) (h : hub) : hub :=
  if is_open h id then set_rooms h (<[r := {[id]} ∪ members h r]> (rooms h)) else h.

(** [socket.leave(room)]: an emptied room is dropped. *)
Definition leave (id r : string) (h : hub) : hub :=
  if is_open h id then
    let m := members h r ∖ {[id]} in
    set_rooms h (if decide (m = ∅) then delete r (rooms h) else <[r := m]> (rooms h))
  else h.

(** [socket.emit(event, ...args)]: written to the socket's own transport,
    dropped when it is no longer registered. *)
Definition emit (id : string) (e : envelope) (h : hub) : hub :=
  if is_open h id then send_frames h [(id, encode e)] else h.

(** [broadcast(room, envelope, excludeId?)] over a snapshot of the members. *)
Definition broadcast (r : string) (e : envelope) (excl : option string) (h : hub) : hub :=
  let ms := match excl with Some x => members h r ∖ {[x]} | None => members h r end in
  send_frames h (map (fun m => (m, encode e)) (elements ms)).

(** [socket.to(room).emit(event, ...args)] *)
Definition to_emit (id r : string) (e : envelope) (h : hub) : hub :=
  broadcast r e (Some id) h.

Definition disconnect_labels (hs : list (string * nat)) : list nat :=
  map snd (filter (fun p => p.1 = "disconnect") hs).

(** Transport close: Open -> Closed, [disconnect] handlers fired once, the
    id removed from every room and from the Registry; a no-op otherwise. *)
Definition handle_close (id : string) (h : hub) : hub :=
  match sockets h !! id with
  | Some s =>
      if s_open s then
        mkHub (<[id := mkSocket false (s_handlers s)]> (sockets h))
              ((fun m => m ∖ {[id]}) <$> rooms h)
              (next_id h) (outbox h)
              (fired h ++ map (fun l => (id, l)) (disconnect_labels (s_handlers s)))
      else h
  | None => h
  end.

(** Transport events and socket operations. *)
Inductive op : Type :=
| OpOpen
| OpOn (id ev : string) (lbl : nat)
| OpJoin (id r : string)
| OpLeave (id r : string)
| OpEmit (id : string) (e : envelope)
| OpTo (id r : string) (e : envelope)
| OpBroadcast (r : string) (e : envelope)
| OpClose (id : string)
| OpError (id : string).

(** [onError] in [src/index.ts] only logs: the hub is not notified. *)
Definition apply_op (o : op) (h : hub) : hub :=
  match o with
  | OpOpen => (handle_open h).1
  | OpOn id ev lbl => on id ev lbl h
  | OpJoin id r => join id r h
  | OpLeave id r => leave id r h
  | OpEmit id e => emit id e h
  | OpTo id r e => to_emit id r e h
  | OpBroadcast r e => broadcast r e None h
  | OpClose id => handle_close id h
  | OpError _ => h
  end.

Definition run (ops : list op) : hub := fold_left (fun h o => apply_op o h) ops hub_empty.

(** No dangling membership: every room member is registered. *)
Definition members_registered (h : hub) : Prop :=
  forall r ms m, rooms h !! r = Some ms -> m ∈ ms -> is_open h m = true.

(** Ids not yet handed out are not in use. *)
Definition fresh_ids (h : hub) : Prop :=
  forall k, next_id h <= k -> sockets h !! sock_id k = None.

(** The [disconnect] invocations logged for [id]. *)
Definition fired_of (h : hub) (id : string) : list (string * nat) :=
  filter (fun p => p.1 = id) (fired h).

Definition expected_fired (h : hub) (id : string) : list (string * nat) :=
  match sockets h !! id with
  | Some s => if s_open s then [] else map (fun l => (id, l)) (disconnect_labels (s_handlers s))
  | None => []
  end.

Definition lifecycle_inv (h : hub) : Prop :=
  fresh_ids h /\ forall id, fired_of h id = expected_fired h id.

End Hub.

(* ================================================================= *)
(** ** Application handlers of [src/index.ts] *)

Module App.
Import Codec Hub.

(** JavaScript [String(v)], as used in template literals; [None] is
    [undefined]. *)
Fixpoint js_string (v : json) : string :=
  match v with
  | JNull => "null"
  | JBool true => "true"
  | JBool false => "false"
  | JNum z => pretty z
  | JStr s => s
  | JArr l =>
      (fix join_elems (l : list json) : string :=
         match l with
         | [] => ""
         | [x] => match x with JNull => "" | _ => js_string x end
         | x :: l' => match x with JNull => "" | _ => js_string x end +:+ "," +:+ join_elems l'
         end) l
  | JObj _ => "[object Object]"
  end.

Definition js_string_opt (v : option json) : string :=
  match v with Some x => js_string x | None => "undefined" end.

(** Inbound dispatch: the elements of a sequence [data] are the positional
    arguments, any other value is the single argument. *)
Definition dispatch_args (d : option json) : list json :=
  match d with
  | Some (JArr l) => l
  | Some v => [v]
  | None => []
  end.


(** [socket.on('join-room', (room) => ...)] *)
Definition join_room_handler (s room : string) (h : hub) : hub :=
  let h1 := leave s "general" h in
  let h2 := join s room h1 in
  let h3 := emit s (emit_envelope "joined" [JStr ("You joined room: " +:+ room)]) h2 in
  to_emit s room (emit_envelope "user-joined" [JStr (s +:+ " joined the room")]) h3.

(** The envelope sent to the target of a private message. *)
Definition private_payload (s : string) (message : option json) : json :=
  JObj (("from", JStr s) :: match message with Some m => [("message", m)] | None => [] end).

Definition not_found_text (target : option json) : string :=
  "User " +:+ js_string_opt target +:+ " not found or disconnected.".

(** [socket.on('private-message', ({targetSocketId, message}) => ...)]:
    [None] is the [TypeError] of destructuring [undefined] or [null]. *)
Definition private_message_handler (s : string) (arg : option json) (h : hub) : option hub :=
  let fields :=
    match arg with
    | None | Some JNull => None
    | Some (JObj kvs) => Some (obj_get "targetSocketId" kvs, obj_get "message" kvs)
    | Some _ => Some (None, None)
    end in
  match fields with
  | None => None
  | Some (target, message) =>
      let target_socket :=
        match target with Some (JStr t) => clients_get h t | _ => None end in
      match target_socket, target with
      | Some _, Some (JStr t) =>
          Some (emit t (emit_envelope "private-message" [private_payload s message]) h)
      | _, _ =>
          Some (emit s (emit_envelope "error" [JStr (not_found_text target)]) h)
      end
  end.

(** Labels of the handlers [io.on('connection')] installs, in order. *)
Definition lbl_message : nat := 1.
Definition lbl_join_room : nat := 2.
Definition lbl_private_message : nat := 3.
Definition lbl_live_tiktok : nat := 4.
Definition lbl_disconnect : nat := 5.

(** [io.on('connection', (socket) => ...)]: join ['general'], then the
    five [socket.on] registrations. *)
Definition connection_hook (id : string) (h : hub) : hub :=
  on id "disconnect" lbl_disconnect
    (on id "live:tiktok" lbl_live_tiktok
       (on id "private-message" lbl_private_message
          (on id "join-room" lbl_join_room
             (on id "message" lbl_message
                (join id "general" h))))).

(** [TestClient.emit(event, ...args)] of [src/test/ws.test.ts]: the frame
    [JSON.stringify({ event, data: args })], sent only while connected. *)
Definition test_client_emit (connected : bool) (event : string) (args : list json) : option raw :=
  if connected then Some (stringify (JObj [("event", JStr event); ("data", JArr args)])) else None.

End App.

(* ================================================================= *)
(** ** TikTok live connections of [src/platforms/tiktoklive.ts] *)

Module Tiktok.

(** A [TikTokLiveConnection] object: its username, the room id learnt on
    connect, its [on] registrations (event, closure), and its state. *)
Record conn := mkConn {
  c_user : string;
  c_room : option Z;
  c_handlers : list (string * nat);
  c_connected : bool;
  c_disconnects : nat
}.

(** An [emitter.emit(name, {tiktokUsername, roomId?, ...})] call. *)
Record emission := mkEmission { em_name : string; em_user : string; em_room : option Z }.

(** A listener registered by the [live:tiktok] handler: the event it
    listens to, the username it filters on, and the socket it forwards to. *)
Record listener := mkListener { l_event : string; l_user : string; l_socket : string }.

Record tstate := mkTState {
  live_map : gmap string nat;   (* CurrentLiveMap: username -> connection *)
  conns : gmap nat conn;        (* connection objects, by reference *)
  next_ref : nat;
  next_closure : nat;           (* closures are told apart by identity *)
  emitted : list emission;      (* the shared emitter's emit log *)
  listeners : list listener     (* the shared emitter's listeners *)
}.

Definition tstate_empty : tstate := mkTState ∅ ∅ 0 0 [] [].

(** A settled promise. *)
Inductive presult (A : Type) := Resolved (a : A) | Rejected.
Arguments Resolved {A} a.
Arguments Rejected {A}.

Definition emit_ev (name u : string) (room : option Z) (st : tstate) : tstate :=
  mkTState (live_map st) (conns st) (next_ref st) (next_closure st)
           (emitted st ++ [mkEmission name u room]) (listeners st).

Definition set_conn (ref : nat) (c : conn) (st : tstate) : tstate :=
  mkTState (live_map st) (<[ref := c]> (conns st)) (next_ref st) (next_closure st)
           (emitted st) (listeners st).

Definition set_live_map (m : gmap string nat) (st : tstate) : tstate :=
  mkTState m (conns st) (next_ref st) (next_closure st) (emitted st) (listeners st).

(** [connection.on(event, closure)] with a fresh closure. *)
Definition conn_on (ref : nat) (ev : string) (st : tstate) : tstate :=
  let k := next_closure st in
  let st' := mkTState (live_map st) (conns st) (next_ref st) (S k) (emitted st) (listeners st) in
  match conns st !! ref with
  | Some c => set_conn ref (mkConn (c_user c) (c_room c) (c_handlers c ++ [(ev, k)])
                                   (c_connected c) (c_disconnects c)) st'
  | None => st'
  end.

(** EventEmitter [removeListener]: the last registration of exactly that
    closure is removed, nothing when there is none. *)
Fixpoint remove_first (x : string * nat) (l : list (string * nat)) : list (string * nat) :=
  match l with
  | [] => []
  | y :: l' => if decide (y = x) then l' else y :: remove_first x l'
  end.

Definition remove_last (x : string * nat) (l : list (string * nat)) : list (string * nat) :=
  rev (remove_first x (rev l)).

(** [connection.off(event, closure)] with a closure created for the call. *)
Definition conn_off (ref : nat) (ev : string) (st : tstate) : tstate :=
  let k := next_closure st in
  let st' := mkTState (live_map st) (conns st) (next_ref st) (S k) (emitted st) (listeners st) in
  match conns st !! ref with
  | Some c => set_conn ref (mkConn (c_user c) (c_room c) (remove_last (ev, k) (c_handlers c))
                                   (c_connected c) (c_disconnects c)) st'
  | None => st'
  end.

(** Every closure registered on a connection is older than the next one. *)
Definition closures_below (st : tstate) : Prop :=
  forall r c p, conns st !! r = Some c -> p ∈ c_handlers c -> p.2 < next_closure st.

Section Functions.

(** [Object.values(WebcastEvent)], from the connector library. *)
Variable TiktokEventsArray : list string.

(** [createLive], up to its [await connection.connect()]: the connection
    object is created. *)
Definition create_live_start (u : string) (st : tstate) : nat * tstate :=
  let ref := next_ref st in
  (ref, mkTState (live_map st) (<[ref := mkConn u None [] false 0]> (conns st)) (S ref)
                 (next_closure st) (emitted st) (listeners st)).

(** [createLive], after [connect()] settles: [Some roomId] when it resolves,
    [None] when it throws. *)
Definition create_live_finish (u : string) (ref : nat) (outcome : option Z) (st : tstate)
  : presult nat * tstate :=
  match outcome with
  | Some rid =>
      let st1 := emit_ev "tiktok:connected" u (Some rid) st in
      let st2 := match conns st1 !! ref with
                 | Some c => set_conn ref (mkConn (c_user c) (Some rid) (c_handlers c) true
                                                  (c_disconnects c)) st1
                 | None => st1
                 end in
      (Resolved ref, fold_left (fun st ev => conn_on ref ev st) TiktokEventsArray st2)
  | None =>
      (Rejected, emit_ev "tiktok:disconnected" u None st)
  end.

Definition createLive (u : string) (outcome : option Z) (st : tstate) : presult nat * tstate :=
  let '(ref, st1) := create_live_start u st in
  create_live_finish u ref outcome st1.

(** [getLive] *)
Definition getLive (u : string) (st : tstate) : option nat := live_map st !! u.

(** [createLiveIfNotExist] as a task suspended at [connect()]. *)
Inductive task :=
| TaskDone (r : presult unit)
| TaskAwaitConnect (u : string) (ref : nat).

Definition cline_start (u : string) (st : tstate) : task * tstate :=
  match live_map st !! u with
  | Some _ => (TaskDone (Resolved tt), st)
  | None => let '(ref, st1) := create_live_start u st in (TaskAwaitConnect u ref, st1)
  end.

Definition cline_resume (t : task) (outcome : option Z) (st : tstate) : task * tstate :=
  match t with
  | TaskAwaitConnect u ref =>
      match create_live_finish u ref outcome st with
      | (Resolved c, st') => (TaskDone (Resolved tt), set_live_map (<[u := c]> (live_map st')) st')
      | (Rejected, st') => (TaskDone Rejected, st')
      end
  | TaskDone _ => (t, st)
  end.

(** [createLiveIfNotExist], run to completion. *)
Definition createLiveIfNotExist (u : string) (outcome : option Z) (st : tstate)
  : presult unit * tstate :=
  match live_map st !! u with
  | Some _ => (Resolved tt, st)
  | None =>
      match createLive u outcome st with
      | (Resolved c, st') => (Resolved tt, set_live_map (<[u := c]> (live_map st')) st')
      | (Rejected, st') => (Rejected, st')
      end
  end.

(** [disconnectLive] *)
Definition disconnectLive (u : string) (st : tstate) : tstate :=
  match getLive u st with
  | Some ref =>
      match conns st !! ref with
      | Some c =>
          let st1 := set_conn ref (mkConn (c_user c) (c_room c) (c_handlers c) false
                                          (S (c_disconnects c))) st in
          let st2 := set_live_map (delete u (live_map st1)) st1 in
          let st3 := emit_ev "tiktok:disconnected" u (c_room c) st2 in
          fold_left (fun st ev => conn_off ref ev st) TiktokEventsArray st3
      | None => st
      end
  | None => st
  end.

(** Modelled from the spec: the shared emitter of [src/Emitter] is not
    among the sources; as the spec's design notes describe it, [emitter.on]
    appends a listener and nothing here removes one. *)
Definition add_listener (ev u sock : string) (st : tstate) : tstate :=
  mkTState (live_map st) (conns st) (next_ref st) (next_closure st) (emitted st)
           (listeners st ++ [mkListener ev u sock]).

(** [socket.on('live:tiktok', async (tiktokUsername) => ...)] of
    [src/index.ts]: three emitter listeners once [createLiveIfNotExist]
    resolves. *)
Definition live_tiktok_handler (sock u : string) (outcome : option Z) (st : tstate)
  : presult unit * tstate :=
  match createLiveIfNotExist u outcome st with
  | (Resolved _, st1) =>
      (Resolved tt,
       add_listener "tiktok:disconnected" u sock
         (add_listener "tiktok:event" u sock
            (add_listener "tiktok:connected" u sock st1)))
  | (Rejected, st1) => (Rejected, st1)
  end.

(** The three listeners one [live:tiktok] invocation adds. *)
Definition bridge_listeners (u sock : string) : list listener :=
  [mkListener "tiktok:connected" u sock; mkListener "tiktok:event" u sock;
   mkListener "tiktok:disconnected" u sock].

(** Modelled from the spec: [emitter.emit(name, data)] calls, in
    registration order, every listener registered for [name]; a
    [live:tiktok] listener forwards to its socket when
    [data.tiktokUsername === tiktokUsername] ([src/index.ts]). The sockets
    an emission reaches, one entry per forwarding listener: *)
Definition forward_targets (ls : list listener) (em : emission) : list string :=
  map l_socket (filter (fun l => l_event l = em_name em /\ l_user l = em_user em) ls).

(** Consistency of the module state: connection references are below
    [next_ref]; each stored connection belongs to its username and carries
    one handler per webcast event; each connected connection is the one
    stored for its username. *)
Definition live_state_ok (st : tstate) : Prop :=
  (forall r c, conns st !! r = Some c -> r < next_ref st) /\
  (forall u ref, live_map st !! u = Some ref ->
     exists c, conns st !! ref = Some c /\ c_user c = u /\
               map fst (c_handlers c) = TiktokEventsArray) /\
  (forall ref c, conns st !! ref = Some c -> c_connected c = true ->
     live_map st !! c_user c = Some ref).

(** [socket.on('disconnect', () => console.log(...))] of [src/index.ts]. *)
Definition disconnect_handler (st : tstate) : tstate := st.

(** The connector library firing [ev] on a connection object
    ([connection.emit(ev, data)]): every handler registered for [ev] runs in
    order; each one [createLive] registered emits ['tiktok:event'] for the
    username it was created for. *)
Definition conn_fire (ref : nat) (ev : string) (st : tstate) : tstate :=
  match conns st !! ref with
  | Some c =>
      fold_left (fun st _ => emit_ev "tiktok:event" (c_user c) None st)
                (filter (fun p => p.1 = ev) (c_handlers c)) st
  | None => st
  end.

(** A connection ending on its own (TikTok ends the stream or closes the
    websocket): the library marks it disconnected. No code of the module
    reacts, so CurrentLiveMap keeps it. *)
Definition conn_lost (ref : nat) (st : tstate) : tstate :=
  match conns st !! ref with
  | Some c => set_conn ref (mkConn (c_user c) (c_room c) (c_handlers c) false (c_disconnects c)) st
  | None => st
  end.

(** How many connection objects of [u] are connected to TikTok. *)
Definition connected_count (u : string) (st : tstate) : nat :=
  length (filter (fun c => c_user c = u /\ c_connected c = true) (map snd (map_to_list (conns st)))).

(** Operations on the module state. *)
Inductive top :=
| TCreate (u : string) (outcome : option Z)
| TDisconnect (u : string)
| TLive (sock u : string) (outcome : option Z)
| TSocketDisconnect
| TConnEvent (ref : nat) (ev : string)
| TConnLost (ref : nat).

Definition apply_top (o : top) (st : tstate) : tstate :=
  match o with
  | TCreate u outcome => (createLiveIfNotExist u outcome st).2
  | TDisconnect u => disconnectLive u st
  | TLive sock u outcome => (live_tiktok_handler sock u outcome st).2
  | TSocketDisconnect => disconnect_handler st
  | TConnEvent ref ev => conn_fire ref ev st
  | TConnLost ref => conn_lost ref st
  end.

Definition trun (ops : list top) : tstate := fold_left (fun st o => apply_top o st) ops tstate_empty.

End Functions.

End Tiktok.

(* ================================================================= *)
(** * Proofs *)

Module CodecFacts.
Import Codec.

Lemma stringify_arr l : stringify (JArr l) = TLBrack :: ser_elems l.
Proof.
  reflexivity.
Qed.

Lemma stringify_obj kvs : stringify (JObj kvs) = TLBrace :: ser_members kvs.
Proof.
  reflexivity.
Qed.

Lemma stringify_head v :
  exists t ts, stringify v = t :: ts /\ t <> TRBrack /\ t <> TRBrace.
Proof. destruct v as [| [|] | | | |]; eexists _, _; (split; [reflexivity|]); done. Qed.

Lemma stringify_length_pos v : 1 <= length (stringify v).
Proof. destruct (stringify_head v) as (t & ts & -> & _). cbn. lia. Qed.

Lemma ser_elems_head x l rest r' :
  ser_elems (x :: l) ++ rest <> TRBrack :: r'.
Proof.
  destruct (stringify_head x) as (t & ts & Ht & Hb & _).
  destruct l as [|y l]; cbn; rewrite Ht; cbn; congruence.
Qed.

Lemma ser_elems_length l :
  length l <= length (ser_elems l) /\
  forall x, In x l -> length (stringify x) < length (ser_elems l).
Proof.
  induction l as [|x [|y l] IH].
  - cbn. split; [lia|done].
  - cbn [ser_elems]. rewrite length_app. cbn. split; [lia|]. intros ? [<-|[]]. lia.
  - change (ser_elems (x :: y :: l)) with (stringify x ++ TComma :: ser_elems (y :: l)).
    destruct IH as [IH1 IH2]. rewrite length_app. cbn [length] in *.
    pose proof (stringify_length_pos x). split; [lia|].
    intros z [<-|Hz]; [lia|]. specialize (IH2 z Hz). lia.
Qed.

Lemma ser_members_length kvs :
  length kvs <= length (ser_members kvs) /\
  forall k x, In (k, x) kvs -> length (stringify x) < length (ser_members kvs).
Proof.
  induction kvs as [|[k x] [|[k' y] kvs] IH].
  - cbn. split; [lia|done].
  - cbn [ser_members]. cbn. rewrite length_app. cbn. split; [lia|]. intros ? ? [[= <- <-]|[]]. lia.
  - change (ser_members ((k, x) :: (k', y) :: kvs))
      with (TStr k :: TColon :: stringify x ++ TComma :: ser_members ((k', y) :: kvs)).
    destruct IH as [IH1 IH2]. cbn [length]. rewrite length_app. cbn [length] in *.
    pose proof (stringify_length_pos x). split; [lia|]. intros k0 z [[= <- <-]|Hz]; [lia|]. specialize (IH2 k0 z Hz). lia.
Qed.

Lemma parse_value_arr f r :
  (forall r', r <> TRBrack :: r') ->
  parse_value (S f) (TLBrack :: r) =
  match parse_elems (parse_value f) (length r) r with
  | Some (l, r') => Some (JArr l, r')
  | None => None
  end.
Proof.
  intros H. destruct r as [|t r]; [reflexivity|].
  destruct t; try reflexivity. by destruct (H r).
Qed.

Lemma parse_value_obj f r :
  (forall r', r <> TRBrace :: r') ->
  parse_value (S f) (TLBrace :: r) =
  match parse_members (parse_value f) (length r) r with
  | Some (kvs, r') => Some (JObj kvs, r')
  | None => None
  end.
Proof.
  intros H. destruct r as [|t r]; [reflexivity|].
  destruct t; try reflexivity. by destruct (H r).
Qed.

Lemma parse_elems_ser pv l rest n :
  l <> [] ->
  Forall (fun x => forall rest, pv (stringify x ++ rest) = Some (x, rest)) l ->
  length l <= n ->
  parse_elems pv n (ser_elems l ++ rest) = Some (l, rest).
Proof.
  intros Hne HF. revert n Hne.
  induction HF as [|x l Hx HF IH]; intros n Hne Hn; [done|].
  destruct n as [|n]; [cbn in Hn; lia|].
  destruct l as [|y l].
  - cbn [ser_elems]. rewrite <- app_assoc. cbn [parse_elems]. by rewrite Hx.
  - cbn [ser_elems]. rewrite <- app_assoc, <- app_comm_cons.
    cbn [parse_elems]. rewrite Hx, IH; [done|done|cbn in Hn |- *; lia].
Qed.

Lemma parse_members_ser pv kvs rest n :
  kvs <> [] ->
  Forall (fun kv => forall rest, pv (stringify kv.2 ++ rest) = Some (kv.2, rest)) kvs ->
  length kvs <= n ->
  parse_members pv n (ser_members kvs ++ rest) = Some (kvs, rest).
Proof.
  intros Hne HF. revert n Hne.
  induction HF as [|[k x] kvs Hx HF IH]; intros n Hne Hn; [done|].
  destruct n as [|n]; [cbn in Hn; lia|]. cbn [snd] in Hx.
  destruct kvs as [|[k' y] kvs].
  - cbn [ser_members]. cbn [app]. rewrite <- app_assoc. cbn [parse_members]. by rewrite Hx.
  - cbn [ser_members]. cbn [app]. rewrite <- app_assoc, <- app_comm_cons.
    cbn [parse_members]. rewrite Hx, IH; [done|done|cbn in Hn |- *; lia].
Qed.

Lemma parse_stringify v :
  forall fuel rest, length (stringify v) <= fuel ->
  parse_value fuel (stringify v ++ rest) = Some (v, rest).
Proof.
  induction v as [| b | z | s | l HF | kvs HF] using json_ind';
    intros [|f] rest Hf; try (destruct b); try (cbn in Hf; lia); try reflexivity.
  - rewrite stringify_arr in Hf |- *. destruct l as [|x l]; [reflexivity|].
    cbn [app]. rewrite parse_value_arr by apply ser_elems_head.
    destruct (ser_elems_length (x :: l)) as [L1 L2]. cbn [length] in Hf.
    rewrite parse_elems_ser; [done|done| |rewrite length_app; lia].
    apply List.Forall_forall. intros y Hy rest'. rewrite List.Forall_forall in HF.
    apply HF; [done|]. specialize (L2 y Hy). lia.
  - rewrite stringify_obj in Hf |- *. destruct kvs as [|[k x] kvs]; [reflexivity|].
    cbn [app]. rewrite parse_value_obj.
    2:{ intros r'. destruct kvs as [|[]]; cbn; congruence. }
    destruct (ser_members_length ((k, x) :: kvs)) as [L1 L2]. cbn [length] in Hf.
    rewrite parse_members_ser; [done|done| |rewrite length_app; lia].
    apply List.Forall_forall. intros [k' y] Hy rest'. rewrite List.Forall_forall in HF.
    apply (HF (k', y)); [done|]. specialize (L2 k' y Hy). cbn. lia.
Qed.

Lemma json_parse_stringify v : json_parse (stringify v) = Some v.
Proof.
  unfold json_parse.
  pose proof (parse_stringify v (length (stringify v)) [] (le_n _)) as H.
  rewrite app_nil_r in H. by rewrite H.
Qed.

End CodecFacts.

Module HubFacts.
Import Codec Hub.

Lemma run_snoc ops o : run (ops ++ [o]) = apply_op o (run ops).
Proof. unfold run. by rewrite fold_left_app. Qed.

Lemma run_ind (P : hub -> Prop) :
  P hub_empty -> (forall o h, P h -> P (apply_op o h)) -> forall ops, P (run ops).
Proof.
  intros H0 HS ops. induction ops as [|o ops IH] using rev_ind; [done|].
  rewrite run_snoc. by apply HS.
Qed.

Lemma members_registered_mono h h' :
  rooms h' = rooms h ->
  (forall m, is_open h m = true -> is_open h' m = true) ->
  members_registered h -> members_registered h'.
Proof. intros Hr Ho Hinv r ms m. rewrite Hr. eauto. Qed.

Lemma is_open_insert h m id s :
  is_open (set_sockets h (<[id := s]> (sockets h))) m =
  if decide (m = id) then s_open s else is_open h m.
Proof.
  unfold is_open, set_sockets. cbn. destruct (decide (m = id)) as [->|Hne].
  - by rewrite lookup_insert_eq.
  - by rewrite lookup_insert_ne.
Qed.

Lemma members_lookup h r m : m ∈ members h r -> exists ms, rooms h !! r = Some ms /\ m ∈ ms.
Proof. unfold members. destruct (rooms h !! r) as [ms|]; cbn; [eauto|set_solver]. Qed.

Lemma apply_op_members_registered o h :
  members_registered h -> members_registered (apply_op o h).
Proof.
  intros Hinv. destruct o as [|id ev lbl|id r|id r|id e|id r e|r e|id|id]; cbn.
  - (* open *)
    apply (members_registered_mono h); [done| |done]. intros m Hm.
    unfold is_open. cbn. destruct (decide (m = sock_id (next_id h))) as [->|Hne].
    + by rewrite lookup_insert_eq.
    + by rewrite lookup_insert_ne.
  - (* on *)
    unfold on. destruct (sockets h !! id) as [s|] eqn:Hs; [|done].
    destruct (s_open s) eqn:Ho; [|done].
    apply (members_registered_mono h); [done| |done]. intros m Hm.
    rewrite is_open_insert. by case_decide.
  - (* join *)
    unfold join. destruct (is_open h id) eqn:Ho; [|done].
    intros r' ms m. unfold set_rooms. cbn. destruct (decide (r' = r)) as [->|Hne].
    + rewrite lookup_insert_eq. intros [= <-] Hm. unfold is_open. cbn. fold (is_open h m).
      apply elem_of_union in Hm as [Hm|Hm].
      * apply elem_of_singleton in Hm. by subst.
      * destruct (members_lookup h r m Hm) as (ms0 & Hr & Hm0). eauto.
    + rewrite lookup_insert_ne by done. apply Hinv.
  - (* leave *)
    unfold leave. destruct (is_open h id) eqn:Ho; [|done].
    intros r' ms m. unfold set_rooms. cbn. fold (is_open h m).
    case_decide.
    + destruct (decide (r' = r)) as [->|Hne].
      * by rewrite lookup_delete_eq.
      * rewrite lookup_delete_ne by done. apply Hinv.
    + destruct (decide (r' = r)) as [->|Hne].
      * rewrite lookup_insert_eq. intros [= <-] Hm.
        apply elem_of_difference in Hm as [Hm _].
        destruct (members_lookup h r m Hm) as (ms0 & Hr & Hm0). eauto.
      * rewrite lookup_insert_ne by done. apply Hinv.
  - (* emit *)
    unfold emit. destruct (is_open h id); [|done]. done.
  - (* to *) done.
  - (* broadcast *) done.
  - (* close *)
    unfold handle_close. destruct (sockets h !! id) as [s|] eqn:Hs; [|done].
    destruct (s_open s) eqn:Ho; [|done].
    intros r ms m. cbn. rewrite lookup_fmap.
    destruct (rooms h !! r) as [ms0|] eqn:Hr; cbn; [|done].
    intros [= <-] Hm. apply elem_of_difference in Hm as [Hm Hne].
    unfold is_open. cbn. rewrite lookup_insert_ne by set_solver.
    fold (is_open h m). eauto.
  - (* error *) done.
Qed.

Lemma run_members_registered ops : members_registered (run ops).
Proof.
  apply run_ind; [|intros; by apply apply_op_members_registered].
  intros r ms m. cbn. by rewrite lookup_empty.
Qed.

Lemma sock_id_inj a b : sock_id a = sock_id b -> a = b.
Proof. unfold sock_id. intros H. apply (inj (String.append "sock-")) in H. by apply (inj pretty) in H. Qed.


Lemma filter_fired_map (id id' : string) (ls : list nat) :
  filter (fun p : string * nat => p.1 = id') (map (fun l => (id, l)) ls) =
  if decide (id = id') then map (fun l => (id, l)) ls else [].
Proof.
  induction ls as [|l ls IH]; [by case_decide|].
  cbn [map]. rewrite filter_cons. cbn [fst]. rewrite IH.
  repeat case_decide; first [done | congruence].
Qed.

Lemma lifecycle_inv_frame h h' :
  sockets h' = sockets h -> next_id h' = next_id h -> fired h' = fired h ->
  lifecycle_inv h -> lifecycle_inv h'.
Proof.
  intros Hs Hn Hf [Hfr Hinv]. split.
  - intros k. rewrite Hs, Hn. apply Hfr.
  - intros id. unfold fired_of, expected_fired. rewrite Hs, Hf. apply Hinv.
Qed.

Lemma apply_op_lifecycle_inv o h : lifecycle_inv h -> lifecycle_inv (apply_op o h).
Proof.
  intros [Hfr Hinv]. destruct o as [|id ev lbl|id r|id r|id e|id r e|r e|id|id]; cbn.
  - (* open *)
    split.
    + intros k Hk. cbn in *. rewrite lookup_insert_ne; [apply Hfr; lia|].
      intros E. apply sock_id_inj in E. lia.
    + intros id. unfold fired_of, expected_fired. cbn. fold (fired_of h id).
      rewrite Hinv. unfold expected_fired.
      destruct (decide (id = sock_id (next_id h))) as [->|Hne].
      * rewrite lookup_insert_eq, Hfr by lia. done.
      * by rewrite lookup_insert_ne.
  - (* on *)
    unfold on. destruct (sockets h !! id) as [s|] eqn:Hs; [|by split].
    destruct (s_open s) eqn:Ho; [|by split]. split.
    + intros k Hk. unfold set_sockets in *. cbn in *.
      destruct (decide (sock_id k = id)) as [<-|Hne].
      * by rewrite Hfr in Hs.
      * rewrite lookup_insert_ne by done. by apply Hfr.
    + intros id'. unfold fired_of, expected_fired, set_sockets. cbn.
      fold (fired_of h id'). rewrite Hinv. unfold expected_fired.
      destruct (decide (id' = id)) as [->|Hne].
      * by rewrite lookup_insert_eq, Hs, Ho.
      * by rewrite lookup_insert_ne.
  - unfold join. destruct (is_open h id); [|by split].
    by apply (lifecycle_inv_frame h).
  - unfold leave. destruct (is_open h id); [|by split].
    by apply (lifecycle_inv_frame h).
  - unfold emit. destruct (is_open h id); [|by split].
    by apply (lifecycle_inv_frame h).
  - by apply (lifecycle_inv_frame h).
  - by apply (lifecycle_inv_frame h).
  - (* close *)
    unfold handle_close. destruct (sockets h !! id) as [s|] eqn:Hs; [|by split].
    destruct (s_open s) eqn:Ho; [|by split]. split.
    + intros k Hk. cbn in *.
      destruct (decide (sock_id k = id)) as [<-|Hne].
      * by rewrite Hfr in Hs.
      * rewrite lookup_insert_ne by done. by apply Hfr.
    + intros id'. unfold fired_of, expected_fired. cbn.
      rewrite filter_app, filter_fired_map. fold (fired_of h id'). rewrite Hinv.
      unfold expected_fired.
      destruct (decide (id' = id)) as [->|Hne].
      * rewrite lookup_insert_eq, Hs, Ho. cbn. by case_decide.
      * rewrite lookup_insert_ne by done. case_decide; [congruence|]. by rewrite app_nil_r.
  - by split.
Qed.

Lemma run_lifecycle_inv ops : lifecycle_inv (run ops).
Proof.
  apply run_ind; [|intros; by apply apply_op_lifecycle_inv].
  split; [intros k _; cbn; by rewrite lookup_empty|].
  intros id. unfold fired_of, expected_fired. cbn. by rewrite lookup_empty.
Qed.

Lemma closed_stays_closed o h id :
  fresh_ids h -> is_closed h id = true -> is_closed (apply_op o h) id = true.
Proof.
  intros Hfr Hc. unfold is_closed in *.
  destruct (sockets h !! id) as [s|] eqn:Hs; [|done].
  destruct o as [|id0 ev lbl|id0 r|id0 r|id0 e|id0 r e|r e|id0|id0]; cbn.
  - rewrite lookup_insert_ne; [by rewrite Hs|]. intros E. rewrite <- E, Hfr in Hs; [done|lia].
  - unfold on. destruct (sockets h !! id0) as [s0|] eqn:Hs0; [|by rewrite Hs].
    destruct (s_open s0) eqn:Ho; [|by rewrite Hs]. unfold set_sockets. cbn.
    rewrite lookup_insert_ne; [by rewrite Hs|]. intros ->. rewrite Hs in Hs0.
    injection Hs0 as ->. by rewrite Ho in Hc.
  - unfold join. destruct (is_open h id0); cbn; by rewrite Hs.
  - unfold leave. destruct (is_open h id0); cbn; by rewrite Hs.
  - unfold emit. destruct (is_open h id0); cbn; by rewrite Hs.
  - by rewrite Hs.
  - by rewrite Hs.
  - unfold handle_close. destruct (sockets h !! id0) as [s0|] eqn:Hs0; [|by rewrite Hs].
    destruct (s_open s0) eqn:Ho; [|by rewrite Hs]. cbn.
    rewrite lookup_insert_ne; [by rewrite Hs|]. intros ->. rewrite Hs in Hs0.
    injection Hs0 as ->. by rewrite Ho in Hc.
  - by rewrite Hs.
Qed.

End HubFacts.

Module AppFacts.
Import Codec Hub App.

Lemma broadcast_frames (h : hub) (r : string) (e : envelope) (s : string) :
  let fs := map (fun m => (m, encode e)) (elements (members h r ∖ {[s]})) in
  NoDup (map fst fs) /\
  (forall m f, In (m, f) fs <-> m ∈ members h r /\ m <> s /\ f = encode e).
Proof.
  cbn. split.
  - rewrite map_map. cbn. rewrite map_id. apply NoDup_elements.
  - intros m f. rewrite in_map_iff. split.
    + intros (x & [= <- <-] & Hx). apply list_elem_of_In, elem_of_elements in Hx. set_solver.
    + intros (Hm & Hne & ->). exists m. split; [done|].
      apply list_elem_of_In, elem_of_elements. set_solver.
Qed.

Lemma members_leave (h : hub) (s r r' : string) :
  is_open h s = true ->
  members (leave s r h) r' = if decide (r' = r) then members h r ∖ {[s]} else members h r'.
Proof.
  intros Ho. unfold leave. rewrite Ho. unfold members at 1. cbn.
  case_decide as Hm; destruct (decide (r' = r)) as [->|Hne].
  - rewrite lookup_delete_eq. cbn. by rewrite Hm.
  - by rewrite lookup_delete_ne.
  - by rewrite lookup_insert_eq.
  - by rewrite lookup_insert_ne.
Qed.

Lemma members_join (h : hub) (s r r' : string) :
  is_open h s = true ->
  members (join s r h) r' = if decide (r' = r) then {[s]} ∪ members h r else members h r'.
Proof.
  intros Ho. unfold join. rewrite Ho. unfold members at 1. cbn.
  destruct (decide (r' = r)) as [->|Hne].
  - by rewrite lookup_insert_eq.
  - by rewrite lookup_insert_ne.
Qed.

Lemma is_open_leave h s r x : is_open (leave s r h) x = is_open h x.
Proof. unfold leave. by destruct (is_open h s). Qed.

Lemma outbox_leave h s r : outbox (leave s r h) = outbox h.
Proof. unfold leave. by destruct (is_open h s). Qed.

Lemma outbox_join h s r : outbox (join s r h) = outbox h.
Proof. unfold join. by destruct (is_open h s). Qed.

Lemma is_open_join h s r x : is_open (join s r h) x = is_open h x.
Proof. unfold join. by destruct (is_open h s). Qed.

Lemma emit_open (h : hub) (s : string) (e : envelope) :
  is_open h s = true ->
  emit s e h = send_frames h [(s, encode e)].
Proof. intros Ho. unfold emit. by rewrite Ho. Qed.

Lemma clients_get_open h t sk : clients_get h t = Some sk -> is_open h t = true.
Proof.
  unfold clients_get, is_open. destruct (sockets h !! t) as [s|]; [|done].
  by destruct (s_open s).
Qed.

End AppFacts.

Module TiktokFacts.
Import Tiktok.


Lemma remove_first_notin x l : x ∉ l -> remove_first x l = l.
Proof.
  induction l as [|y l IH]; intros Hx; [done|]. cbn.
  case_decide; [subst; set_solver|]. rewrite IH; [done|set_solver].
Qed.

Lemma remove_first_subset x l p : p ∈ remove_first x l -> p ∈ l.
Proof.
  induction l as [|y l IH]; cbn; [done|].
  case_decide; [set_solver|]. rewrite !elem_of_cons. intuition.
Qed.

Lemma remove_last_notin x l : x ∉ l -> remove_last x l = l.
Proof.
  intros Hx. unfold remove_last. rewrite remove_first_notin; [apply rev_involutive|].
  rewrite list_elem_of_In, <- in_rev, <- list_elem_of_In. done.
Qed.

Lemma remove_last_subset x l p : p ∈ remove_last x l -> p ∈ l.
Proof.
  unfold remove_last. rewrite list_elem_of_In, <- in_rev, <- list_elem_of_In. intros H.
  apply remove_first_subset in H. by rewrite list_elem_of_In, <- in_rev, <- list_elem_of_In in H.
Qed.

Lemma closures_below_set_conn st ref c :
  closures_below st -> (forall p, p ∈ c_handlers c -> p.2 < next_closure st) ->
  closures_below (set_conn ref c st).
Proof.
  intros H Hc r c' p. cbn. destruct (decide (r = ref)) as [->|Hne].
  - rewrite lookup_insert_eq. intros [= <-]. apply Hc.
  - rewrite lookup_insert_ne by done. apply H.
Qed.

Lemma closures_below_conn_on st ref ev :
  closures_below st -> closures_below (conn_on ref ev st).
Proof.
  intros H. unfold conn_on. destruct (conns st !! ref) as [c|] eqn:Hc.
  - apply closures_below_set_conn; cbn.
    + intros r c' p Hr Hp. cbn in Hr |- *. specialize (H r c' p Hr Hp). lia.
    + intros p Hp. apply elem_of_app in Hp as [Hp|Hp].
      * specialize (H ref c p Hc Hp). lia.
      * apply list_elem_of_singleton in Hp. subst. cbn. lia.
  - intros r c' p Hr Hp. cbn in *. specialize (H r c' p Hr Hp). lia.
Qed.

Lemma closures_below_conn_off st ref ev :
  closures_below st -> closures_below (conn_off ref ev st).
Proof.
  intros H. unfold conn_off. destruct (conns st !! ref) as [c|] eqn:Hc.
  - apply closures_below_set_conn; cbn.
    + intros r c' p Hr Hp. cbn in Hr |- *. specialize (H r c' p Hr Hp). lia.
    + intros p Hp. apply remove_last_subset in Hp.
      specialize (H ref c p Hc Hp). lia.
  - intros r c' p Hr Hp. cbn in *. specialize (H r c' p Hr Hp). lia.
Qed.

Lemma closures_below_fold (f : tstate -> string -> tstate) evs st :
  (forall st ev, closures_below st -> closures_below (f st ev)) ->
  closures_below st -> closures_below (fold_left f evs st).
Proof.
  intros Hf. revert st. induction evs as [|ev evs IH]; intros st H; cbn; [done|].
  apply IH. by apply Hf.
Qed.

Lemma closures_below_create_live evs u o st :
  closures_below st -> closures_below (createLive evs u o st).2.
Proof.
  intros H. unfold createLive, create_live_start.
  assert (H1 : closures_below (mkTState (live_map st)
             (<[next_ref st := mkConn u None [] false 0]> (conns st)) (S (next_ref st))
             (next_closure st) (emitted st) (listeners st))).
  { intros r c p. cbn. destruct (decide (r = next_ref st)) as [->|Hne].
    - rewrite lookup_insert_eq. intros [= <-]. cbn. set_solver.
    - rewrite lookup_insert_ne by done. apply H. }
  destruct o as [rid|]; cbn; [|done].
  apply closures_below_fold; [intros; by apply closures_below_conn_on|].
  destruct (_ !! next_ref st) as [c|] eqn:Hc; [|done].
  apply closures_below_set_conn; [done|]. intros p Hp. by apply (H1 (next_ref st) c).
Qed.

Lemma closures_below_create_if evs u o st :
  closures_below st -> closures_below (createLiveIfNotExist evs u o st).2.
Proof.
  intros H. unfold createLiveIfNotExist. destruct (live_map st !! u); [done|].
  pose proof (closures_below_create_live evs u o st H) as H1.
  destruct (createLive evs u o st) as [[c|] st'] eqn:E; cbn in *; done.
Qed.

Lemma conn_fire_state ref ev st :
  let st' := conn_fire ref ev st in
  conns st' = conns st /\ live_map st' = live_map st /\ next_ref st' = next_ref st /\
  next_closure st' = next_closure st /\ listeners st' = listeners st.
Proof.
  unfold conn_fire. destruct (conns st !! ref) as [c|]; [|done].
  generalize (filter (fun p : string * nat => p.1 = ev) (c_handlers c)) as l.
  intros l. revert st. induction l as [|p l IH]; intros st; cbn; [done|].
  destruct (IH (emit_ev "tiktok:event" (c_user c) None st)) as (H1 & H2 & H3 & H4 & H5).
  cbn in *. rewrite H1, H2, H3, H4, H5. done.
Qed.

Lemma closures_below_apply evs o st :
  closures_below st -> closures_below (apply_top evs o st).
Proof.
  intros H. destruct o as [u o|u|sock u o| |ref ev|ref]; cbn.
  - by apply closures_below_create_if.
  - unfold disconnectLive, getLive. destruct (live_map st !! u) as [ref|]; [|done].
    destruct (conns st !! ref) as [c|] eqn:Hc; [|done].
    apply closures_below_fold; [intros; by apply closures_below_conn_off|].
    apply closures_below_set_conn; [done|]. intros p Hp. by apply (H ref c).
  - unfold live_tiktok_handler.
    pose proof (closures_below_create_if evs u o st H) as H1.
    destruct (createLiveIfNotExist evs u o st) as [[]st1]; done.
  - done.
  - destruct (conn_fire_state ref ev st) as (H1 & _ & _ & H4 & _).
    intros r c p. rewrite H1, H4. apply H.
  - unfold conn_lost. destruct (conns st !! ref) as [c|] eqn:Hc; [|done].
    apply closures_below_set_conn; [done|]. intros p Hp. by apply (H ref c).
Qed.

Lemma closures_below_trun evs ops : closures_below (trun evs ops).
Proof.
  unfold trun. assert (H0 : closures_below tstate_empty).
  { intros r c p. cbn. by rewrite lookup_empty. }
  revert H0. generalize tstate_empty.
  induction ops as [|o ops IH]; intros st H; cbn; [done|].
  apply IH. by apply closures_below_apply.
Qed.

Lemma fold_conn_off_noop evs ref c st :
  conns st !! ref = Some c ->
  (forall p, p ∈ c_handlers c -> p.2 < next_closure st) ->
  let st' := fold_left (fun st ev => conn_off ref ev st) evs st in
  conns st' = conns st /\ live_map st' = live_map st /\ emitted st' = emitted st /\
  listeners st' = listeners st /\ next_ref st' = next_ref st.
Proof.
  revert st. induction evs as [|ev evs IH]; intros st Hc Hb; cbn; [done|].
  assert (E : conn_off ref ev st =
              mkTState (live_map st) (conns st) (next_ref st) (S (next_closure st))
                       (emitted st) (listeners st)).
  { unfold conn_off. rewrite Hc. unfold set_conn. cbn.
    rewrite remove_last_notin.
    - destruct c. cbn. by rewrite insert_id.
    - intros Hin. specialize (Hb _ Hin). cbn in Hb. lia. }
  rewrite E. destruct (IH (mkTState (live_map st) (conns st) (next_ref st) (S (next_closure st))
                       (emitted st) (listeners st))) as (H1 & H2 & H3 & H4 & H5);
    [done| intros p Hp; specialize (Hb p Hp); cbn; lia|].
  done.
Qed.

Lemma listeners_create_live evs u o st :
  listeners (createLive evs u o st).2 = listeners st.
Proof.
  assert (Hf : forall ref evs st1,
            listeners (fold_left (fun st ev => conn_on ref ev st) evs st1) = listeners st1).
  { intros ref evs0. induction evs0 as [|ev evs0 IH]; intros st1; cbn; [done|].
    rewrite IH. unfold conn_on. by destruct (conns st1 !! ref). }
  unfold createLive, create_live_start, create_live_finish.
  destruct o as [rid|]; cbn [snd]; [|done].
  rewrite Hf. by destruct (_ !! _).
Qed.

Lemma create_live_result evs u o st :
  (createLive evs u o st).1 = match o with Some _ => Resolved (next_ref st) | None => Rejected end.
Proof. by destruct o. Qed.

End TiktokFacts.

(* ================================================================= *)
(** * The specification's claims *)

Module Claims.
Import Codec Hub App Tiktok HubFacts CodecFacts AppFacts TiktokFacts.

(** C1: in every reachable hub state every member of every room is a
    registered (Open) connection, and closing a connection removes its id
    from every room's member set and from the Registry. *)
Theorem membership_consistency (ops : list op) (id r : string) :
  members_registered (run ops) /\
  (id ∉ members (handle_close id (run ops)) r) /\
  clients_get (handle_close id (run ops)) id = None.
Proof.
  pose proof (run_members_registered ops) as Hinv.
  split; [done|]. set (h := run ops) in *.
  unfold handle_close. destruct (sockets h !! id) as [s|] eqn:Hs.
  - destruct (s_open s) eqn:Ho.
    + unfold members, clients_get. cbn. rewrite lookup_fmap, lookup_insert_eq.
      split; [|done]. destruct (rooms h !! r); cbn; set_solver.
    + unfold clients_get. rewrite Hs, Ho. split; [|done].
      intros Hm. destruct (members_lookup h r id Hm) as (ms & Hr & Hm').
      specialize (Hinv r ms id Hr Hm'). unfold is_open in Hinv. by rewrite Hs, Ho in Hinv.
  - unfold clients_get. rewrite Hs. split; [|done].
    intros Hm. destruct (members_lookup h r id Hm) as (ms & Hr & Hm').
    specialize (Hinv r ms id Hr Hm'). unfold is_open in Hinv. by rewrite Hs in Hinv.
Qed.

(** C2: for every connection of a reachable hub state, the logged
    [disconnect] invocations are none while it is Open and exactly one per
    registered [disconnect] handler once it is Closed; a close or error
    signal for a Closed socket changes nothing, and no operation reopens it. *)
Theorem disconnect_fires_once (ops : list op) (id : string) :
  fired_of (run ops) id = expected_fired (run ops) id /\
  (is_closed (run ops) id = true ->
     apply_op (OpClose id) (run ops) = run ops /\
     apply_op (OpError id) (run ops) = run ops /\
     forall o, is_closed (apply_op o (run ops)) id = true).
Proof.
  destruct (run_lifecycle_inv ops) as [Hfr Hinv]. split; [apply Hinv|].
  intros Hc. split; [|split; [done|]].
  - cbn. unfold handle_close. unfold is_closed in Hc.
    destruct (sockets (run ops) !! id) as [s|]; [|done].
    by destruct (s_open s).
  - intros o. by apply closed_stays_closed.
Qed.

Lemma disconnect_fires_once_witness :
  is_closed (run [OpOpen; OpOn "sock-0" "disconnect" 7; OpClose "sock-0"]) "sock-0" = true /\
  apply_op (OpClose "sock-0") (run [OpOpen; OpOn "sock-0" "disconnect" 7; OpClose "sock-0"])
  = run [OpOpen; OpOn "sock-0" "disconnect" 7; OpClose "sock-0"].
Proof.
  split; [reflexivity|].
  apply (proj2 (disconnect_fires_once [OpOpen; OpOn "sock-0" "disconnect" 7; OpClose "sock-0"] "sock-0")).
  reflexivity.
Defined.

(** C3: [s.to(R).emit] writes the encoded envelope once to every current
    member of [R] other than [s], never to [s], and changes nothing else. *)
Theorem to_emit_excludes_sender (h : hub) (s r : string) (e : envelope) :
  exists fs,
    outbox (to_emit s r e h) = outbox h ++ fs /\
    NoDup (map fst fs) /\
    (forall m f, In (m, f) fs <-> m ∈ members h r /\ m <> s /\ f = encode e) /\
    sockets (to_emit s r e h) = sockets h /\ rooms (to_emit s r e h) = rooms h.
Proof.
  destruct (broadcast_frames h r e s) as [Hnd Hin].
  exists (map (fun m => (m, encode e)) (elements (members h r ∖ {[s]}))).
  split; [reflexivity|]. split; [done|]. split; [done|]. split; reflexivity.
Qed.

(** C4: a [private-message] naming an id absent from the Registry makes
    the handler return normally with one [error] envelope, describing the
    target, written to the sender, the sender staying Open; naming a
    registered id, it writes one [private-message] envelope with the
    sender's id and the message to that target only. *)
Theorem private_message_routing (h : hub) (s t : string) (kvs : list (string * json)) :
  is_open h s = true ->
  obj_get "targetSocketId" kvs = Some (JStr t) ->
  (clients_get h t = None ->
     exists h', private_message_handler s (Some (JObj kvs)) h = Some h' /\
       outbox h' = outbox h ++
         [(s, encode (mkEnvelope "error"
                        (Some (JStr ("User " +:+ t +:+ " not found or disconnected.")))))] /\
       sockets h' = sockets h /\ rooms h' = rooms h /\ is_open h' s = true) /\
  (forall sk, clients_get h t = Some sk ->
     exists h', private_message_handler s (Some (JObj kvs)) h = Some h' /\
       outbox h' = outbox h ++
         [(t, encode (mkEnvelope "private-message"
                        (Some (JObj (("from", JStr s) ::
                                     match obj_get "message" kvs with
                                     | Some m => [("message", m)] | None => [] end)))))] /\
       sockets h' = sockets h /\ rooms h' = rooms h).
Proof.
  intros Hs Ht. unfold private_message_handler. rewrite Ht. split.
  - intros Hn. rewrite Hn, emit_open by done.
    eexists. split; [reflexivity|]. split; [reflexivity|]. done.
  - intros sk Hsk. rewrite Hsk, emit_open by (by eapply clients_get_open).
    eexists. split; [reflexivity|]. split; [reflexivity|]. done.
Qed.

Lemma private_message_routing_witness :
  exists h', private_message_handler "sock-0"
               (Some (JObj [("targetSocketId", JStr "fake-id"); ("message", JStr "hi")]))
               (run [OpOpen]) = Some h' /\
             outbox h' = outbox (run [OpOpen]) ++
               [("sock-0", encode (mkEnvelope "error"
                   (Some (JStr ("User " +:+ "fake-id" +:+ " not found or disconnected.")))))] /\
             sockets h' = sockets (run [OpOpen]) /\ rooms h' = rooms (run [OpOpen]) /\
             is_open h' "sock-0" = true.
Proof.
  apply (proj1 (private_message_routing (run [OpOpen]) "sock-0" "fake-id"
                  [("targetSocketId", JStr "fake-id"); ("message", JStr "hi")]
                  eq_refl eq_refl)).
  reflexivity.
Defined.

(** C5: [decode (encode e) = e] for every envelope; an emit with several
    arguments carries them as an ordered sequence under [data], one with a
    single argument carries the bare value, and both decode back to the
    same event name and data. *)
Theorem envelope_roundtrip (e : envelope) (ev : string) (args : list json) :
  decode (encode e) = Some e /\
  (2 <= length args -> ev_data (emit_envelope ev args) = Some (JArr args)) /\
  (forall a, args = [a] -> ev_data (emit_envelope ev args) = Some a) /\
  decode (encode (emit_envelope ev args)) = Some (emit_envelope ev args).
Proof.
  assert (Hrt : forall e, decode (encode e) = Some e).
  { intros [ev' [d|]]; unfold decode, encode; rewrite json_parse_stringify; reflexivity. }
  split; [apply Hrt|]. split; [|split; [|apply Hrt]].
  - intros Hl. destruct args as [|a [|b args]]; cbn in Hl; [lia|lia|reflexivity].
  - by intros a ->.
Qed.

Lemma envelope_roundtrip_witness :
  ev_data (emit_envelope "private-message" [JStr "fake-id"; JStr "hello"])
    = Some (JArr [JStr "fake-id"; JStr "hello"]) /\
  ev_data (emit_envelope "echo" [JStr "hello"]) = Some (JStr "hello").
Proof.
  split.
  - apply (proj1 (proj2 (envelope_roundtrip (emit_envelope "x" []) "private-message"
                           [JStr "fake-id"; JStr "hello"]))).
    cbn. lia.
  - apply (proj1 (proj2 (proj2 (envelope_roundtrip (emit_envelope "x" []) "echo"
                                  [JStr "hello"]))) (JStr "hello")).
    reflexivity.
Defined.

(** C6: the [join-room] handler of an Open socket [s] takes it out of
    ['general'], puts it in [R], leaves the other rooms as they were, writes
    [joined] with a text containing [R] to [s] and then [user-joined] with
    [s]'s id to every other member of [R]. *)
Theorem join_room_effects (h : hub) (s R : string) :
  is_open h s = true ->
  let h' := join_room_handler s R h in
  s ∈ members h' R /\
  (s ∈ members h' "general" <-> R = "general") /\
  (forall r, r <> R -> r <> "general" -> members h' r = members h r) /\
  exists fs,
    outbox h' = outbox h ++
      [(s, encode (mkEnvelope "joined" (Some (JStr ("You joined room: " +:+ R)))))] ++ fs /\
    NoDup (map fst fs) /\
    (forall m f, In (m, f) fs <->
       m ∈ members h' R /\ m <> s /\
       f = encode (mkEnvelope "user-joined" (Some (JStr (s +:+ " joined the room"))))).
Proof.
  intros Ho. cbn zeta. unfold join_room_handler.
  set (h1 := leave s "general" h).
  assert (Ho1 : is_open h1 s = true) by (unfold h1; by rewrite is_open_leave).
  set (h2 := join s R h1).
  assert (Ho2 : is_open h2 s = true) by (unfold h2; by rewrite is_open_join).
  rewrite (emit_open h2) by done.
  set (e := emit_envelope "user-joined" [JStr (s +:+ " joined the room")]).
  set (h3 := send_frames h2 _).
  assert (Hm : forall r, members (to_emit s R e h3) r = members h2 r) by done.
  assert (Hm2 : forall r, members h2 r =
            if decide (r = R) then {[s]} ∪ members h1 R else members h1 r)
    by (intros r; unfold h2; by rewrite members_join).
  assert (Hm1 : forall r, members h1 r =
            if decide (r = "general") then members h "general" ∖ {[s]} else members h r)
    by (intros r; unfold h1; by rewrite members_leave).
  split; [|split; [|split]].
  - rewrite Hm, Hm2. case_decide; [set_solver|done].
  - rewrite Hm, Hm2, !Hm1.
    repeat case_decide; split; intros; first [done | congruence | set_solver].
  - intros r HR Hg. rewrite Hm, Hm2, !Hm1. by repeat case_decide.
  - destruct (broadcast_frames h3 R e s) as [Hnd Hin].
    exists (map (fun m => (m, encode e)) (elements (members h3 R ∖ {[s]}))).
    split; [|split; [done|]].
    + assert (Hob : outbox h2 = outbox h).
      { unfold h2, h1. rewrite outbox_join. apply outbox_leave. }
      cbn. rewrite Hob. by rewrite <- app_assoc.
    + intros m f. rewrite Hin, Hm. done.
Qed.

Lemma join_room_effects_witness :
  is_open (run [OpOpen; OpOpen; OpJoin "sock-0" "general"; OpJoin "sock-1" "general"]) "sock-0"
    = true /\
  "sock-0" ∈ members (join_room_handler "sock-0" "test-room"
                       (run [OpOpen; OpOpen; OpJoin "sock-0" "general";
                             OpJoin "sock-1" "general"])) "test-room".
Proof.
  split; [reflexivity|].
  exact (proj1 (join_room_effects
                  (run [OpOpen; OpOpen; OpJoin "sock-0" "general"; OpJoin "sock-1" "general"])
                  "sock-0" "test-room" eq_refl)).
Defined.


(** C7, as stated: every [live:tiktok] invocation adds the three listeners.
    It fails when [connect()] throws: the handler rejects at its [await]
    before reaching [emitter.on]. *)
Lemma live_tiktok_failed_connect_adds_nothing :
  ~ (forall evs sock u outcome st,
       listeners (live_tiktok_handler evs sock u outcome st).2
       = listeners st ++ bridge_listeners u sock).
Proof.
  intros H. specialize (H [] "sock-0" "alice" None tstate_empty).
  vm_compute in H. discriminate H.
Qed.

(** C7 (amended): an invocation of the [live:tiktok] handler resolves
    exactly when [u] is already stored or [connect()] succeeds; it then
    appends the three listeners for [u] and the socket to the shared
    emitter, removing none (so repeated invocations accumulate them); when
    it rejects it adds none; the socket's [disconnect] handler removes no
    listener. *)
Theorem live_tiktok_listener_accumulation (evs : list string) (sock u : string)
    (outcome : option Z) (st : tstate) :
  ((live_tiktok_handler evs sock u outcome st).1 = Resolved tt <->
     is_Some (live_map st !! u) \/ is_Some outcome) /\
  ((live_tiktok_handler evs sock u outcome st).1 = Resolved tt ->
     listeners (live_tiktok_handler evs sock u outcome st).2
     = listeners st ++ bridge_listeners u sock) /\
  ((live_tiktok_handler evs sock u outcome st).1 = Rejected ->
     listeners (live_tiktok_handler evs sock u outcome st).2 = listeners st) /\
  listeners (disconnect_handler (live_tiktok_handler evs sock u outcome st).2)
  = listeners (live_tiktok_handler evs sock u outcome st).2.
Proof.
  unfold live_tiktok_handler, createLiveIfNotExist.
  destruct (live_map st !! u) as [c|] eqn:Hm.
  - cbn [fst snd]. split; [split; [intros _; left; by eexists|done]|].
    split; [|done]. intros _. cbn. by rewrite <- !app_assoc.
  - pose proof (listeners_create_live evs u outcome st) as HL.
    pose proof (create_live_result evs u outcome st) as HR.
    destruct (createLive evs u outcome st) as [r st'] eqn:E. cbn in HL, HR.
    destruct outcome as [rid|]; subst r.
    + split; [split; [intros _; right; by eexists|done]|]. split; [|split; [done|done]].
      intros _. cbn. rewrite HL. by rewrite <- !app_assoc.
    + cbn. split; [split; [done|intros [[? ?] | [? ?]]; congruence]|]. done.
Qed.

Lemma live_tiktok_listener_accumulation_witness :
  listeners (live_tiktok_handler ["chat"] "sock-0" "alice" (Some 7%Z) tstate_empty).2
  = listeners tstate_empty ++ bridge_listeners "alice" "sock-0".
Proof.
  apply (proj1 (proj2 (live_tiktok_listener_accumulation ["chat"] "sock-0" "alice" (Some 7%Z)
                          tstate_empty))).
  reflexivity.
Defined.

(** C8: [createLiveIfNotExist] checks [CurrentLiveMap.has(u)] before its
    [await createLive(u)] and stores only after it. Two calls for [u] that
    both pass the check before either [connect()] settles open two
    connections. The map keeps the second, so [disconnectLive(u)]
    disconnects only that one: the first stays connected, with its event
    handlers, and no function of the module can reach it. *)
Theorem overlapping_calls_leak_connection :
  let '(t1, st1) := cline_start "alice" tstate_empty in
  let '(t2, st2) := cline_start "alice" st1 in
  let '(_, st3) := cline_resume ["chat"] t1 (Some 1%Z) st2 in
  let '(_, st4) := cline_resume ["chat"] t2 (Some 1%Z) st3 in
  let st5 := disconnectLive ["chat"] "alice" st4 in
  connected_count "alice" st4 = 2 /\ getLive "alice" st4 = Some 1 /\
  getLive "alice" st5 = None /\ connected_count "alice" st5 = 1 /\
  conns st5 !! 0 = Some (mkConn "alice" (Some 1%Z) [("chat", 0)] true 0).
Proof. vm_compute. repeat split. Qed.

(** C9: when [connect()] throws, [createLive(u)] rejects after one
    ['tiktok:disconnected'] emission for [u] and nothing else, leaving
    CurrentLiveMap as it was; [createLiveIfNotExist(u)] then rejects and
    stores nothing for [u]. *)
Theorem create_live_failure (evs : list string) (u : string) (st : tstate) :
  (createLive evs u None st).1 = Rejected /\
  emitted (createLive evs u None st).2 = emitted st ++ [mkEmission "tiktok:disconnected" u None] /\
  live_map (createLive evs u None st).2 = live_map st /\
  (live_map st !! u = None ->
     (createLiveIfNotExist evs u None st).1 = Rejected /\
     emitted (createLiveIfNotExist evs u None st).2
       = emitted st ++ [mkEmission "tiktok:disconnected" u None] /\
     live_map (createLiveIfNotExist evs u None st).2 = live_map st).
Proof.
  split; [done|]. split; [done|]. split; [done|].
  intros Hm. unfold createLiveIfNotExist. rewrite Hm. done.
Qed.

Lemma create_live_failure_witness :
  (createLiveIfNotExist ["chat"] "alice" None tstate_empty).1 = Rejected.
Proof.
  apply (proj1 (proj2 (proj2 (proj2 (create_live_failure ["chat"] "alice" tstate_empty)))
                  eq_refl)).
Defined.

(** C10: for a username with a stored connection, [disconnectLive] calls
    [disconnect()] on it, deletes the username from CurrentLiveMap and emits
    one ['tiktok:disconnected']; its [connection.off] calls pass closures
    never registered, so every handler [createLive] attached stays on the
    connection; nothing else observable changes. *)
Theorem disconnect_live_keeps_handlers (evs : list string) (ops : list top)
    (u : string) (ref : nat) (c : conn) :
  live_map (trun evs ops) !! u = Some ref ->
  conns (trun evs ops) !! ref = Some c ->
  conns (disconnectLive evs u (trun evs ops)) !! ref
    = Some (mkConn (c_user c) (c_room c) (c_handlers c) false (S (c_disconnects c))) /\
  (forall r, r <> ref ->
     conns (disconnectLive evs u (trun evs ops)) !! r = conns (trun evs ops) !! r) /\
  live_map (disconnectLive evs u (trun evs ops)) = delete u (live_map (trun evs ops)) /\
  emitted (disconnectLive evs u (trun evs ops))
    = emitted (trun evs ops) ++ [mkEmission "tiktok:disconnected" u (c_room c)] /\
  listeners (disconnectLive evs u (trun evs ops)) = listeners (trun evs ops).
Proof.
  pose proof (closures_below_trun evs ops) as Hb.
  set (st := trun evs ops) in *. intros Hm Hc.
  unfold disconnectLive, getLive. rewrite Hm, Hc.
  set (c1 := mkConn (c_user c) (c_room c) (c_handlers c) false (S (c_disconnects c))).
  set (st3 := emit_ev "tiktok:disconnected" u (c_room c)
                (set_live_map (delete u (live_map (set_conn ref c1 st))) (set_conn ref c1 st))).
  destruct (fold_conn_off_noop evs ref c1 st3) as (H1 & H2 & H3 & H4 & _).
  - cbn. by rewrite lookup_insert_eq.
  - intros p Hp. cbn. by apply (Hb ref c).
  - rewrite H1, H2, H3, H4. cbn. split; [by rewrite lookup_insert_eq|].
    split; [intros r Hr; by rewrite lookup_insert_ne|]. done.
Qed.

Lemma disconnect_live_keeps_handlers_witness :
  conns (disconnectLive ["chat"; "gift"] "alice" (trun ["chat"; "gift"] [TCreate "alice" (Some 5%Z)])) !! 0
  = Some (mkConn "alice" (Some 5%Z) [("chat", 0); ("gift", 1)] false 1).
Proof.
  apply (proj1 (disconnect_live_keeps_handlers ["chat"; "gift"] [TCreate "alice" (Some 5%Z)]
                  "alice" 0 (mkConn "alice" (Some 5%Z) [("chat", 0); ("gift", 1)] true 0)
                  eq_refl eq_refl)).
Defined.

End Claims.

(* ================================================================= *)
(** * Further properties of the code *)

Module ExtraFacts.
Import Codec Hub App Tiktok HubFacts CodecFacts AppFacts TiktokFacts.

(** ** The TikTok module *)

Lemma map_fst_zip_seq (l : list string) k : map fst (zip l (seq k (length l))) = l.
Proof. revert k. induction l as [|x l IH]; intros k; cbn; [done|]. by rewrite IH. Qed.

Lemma map_snd_zip_seq (l : list string) k : map snd (zip l (seq k (length l))) = seq k (length l).
Proof. revert k. induction l as [|x l IH]; intros k; cbn; [done|]. by rewrite IH. Qed.

Lemma fold_conn_on evs ref c st :
  conns st !! ref = Some c ->
  fold_left (fun st ev => conn_on ref ev st) evs st =
  mkTState (live_map st)
           (<[ref := mkConn (c_user c) (c_room c)
                      (c_handlers c ++ zip evs (seq (next_closure st) (length evs)))
                      (c_connected c) (c_disconnects c)]> (conns st))
           (next_ref st) (next_closure st + length evs) (emitted st) (listeners st).
Proof.
  revert st c. induction evs as [|ev evs IH]; intros st c Hc; cbn.
  - rewrite app_nil_r, Nat.add_0_r. destruct c, st. cbn in *. by rewrite insert_id.
  - unfold conn_on at 2. rewrite Hc. unfold set_conn. cbn.
    rewrite (IH _ (mkConn (c_user c) (c_room c) (c_handlers c ++ [(ev, next_closure st)])
                      (c_connected c) (c_disconnects c))) by (cbn; by rewrite lookup_insert_eq).
    cbn. rewrite insert_insert_eq, <- app_assoc. do 2 f_equal. lia.
Qed.

(** [createLive], both outcomes, as one state update. *)
Lemma create_live_eq evs u o st :
  createLive evs u o st =
  match o with
  | Some rid =>
      (Resolved (next_ref st),
       mkTState (live_map st)
         (<[next_ref st := mkConn u (Some rid) (zip evs (seq (next_closure st) (length evs)))
                              true 0]> (conns st))
         (S (next_ref st)) (next_closure st + length evs)
         (emitted st ++ [mkEmission "tiktok:connected" u (Some rid)]) (listeners st))
  | None =>
      (Rejected,
       mkTState (live_map st) (<[next_ref st := mkConn u None [] false 0]> (conns st))
         (S (next_ref st)) (next_closure st)
         (emitted st ++ [mkEmission "tiktok:disconnected" u None]) (listeners st))
  end.
Proof.
  destruct o as [rid|]; [|done].
  unfold createLive, create_live_start, create_live_finish. cbn.
  rewrite lookup_insert_eq. unfold set_conn. cbn.
  rewrite (fold_conn_on _ _ (mkConn u (Some rid) [] true 0)) by (cbn; by rewrite lookup_insert_eq).
  cbn. by rewrite !insert_insert_eq.
Qed.

Lemma fold_conn_off_live_map evs ref st :
  live_map (fold_left (fun st ev => conn_off ref ev st) evs st) = live_map st.
Proof.
  revert st. induction evs as [|ev evs IH]; intros st; cbn; [done|].
  rewrite IH. unfold conn_off. by destruct (conns st !! ref).
Qed.

Lemma live_state_ok_empty evs : live_state_ok evs tstate_empty.
Proof.
  split; [|split]; intros *; cbn; rewrite lookup_empty; done.
Qed.

Lemma live_state_ok_create_if evs u o st :
  live_state_ok evs st -> live_state_ok evs (createLiveIfNotExist evs u o st).2.
Proof.
  intros (Ha & Hb & Hc). unfold createLiveIfNotExist.
  destruct (live_map st !! u) as [r0|] eqn:Hu; [by split; [|split]|].
  rewrite create_live_eq. unfold live_state_ok. destruct o as [rid|]; cbn.
  - split; [|split].
    + intros r c. destruct (decide (r = next_ref st)) as [->|Hne]; [intros; lia|].
      rewrite lookup_insert_ne by done. intros Hr. specialize (Ha r c Hr). lia.
    + intros u' ref. destruct (decide (u' = u)) as [->|Hne].
      * rewrite lookup_insert_eq. intros [= <-]. rewrite lookup_insert_eq.
        eexists; split; [done|]. cbn. split; [done|].
        apply map_fst_zip_seq.
      * rewrite lookup_insert_ne by done. intros Hr.
        destruct (Hb u' ref Hr) as (c & Hcr & Hrest).
        specialize (Ha ref c Hcr). rewrite lookup_insert_ne by lia. eauto.
    + intros ref c. destruct (decide (ref = next_ref st)) as [->|Hne].
      * rewrite lookup_insert_eq. intros [= <-] _. cbn. by rewrite lookup_insert_eq.
      * rewrite lookup_insert_ne by done. intros Hcr Hcon.
        specialize (Hc ref c Hcr Hcon).
        rewrite lookup_insert_ne; [done|]. intros Heq. congruence.
  - split; [|split].
    + intros r c. destruct (decide (r = next_ref st)) as [->|Hne]; [intros; lia|].
      rewrite lookup_insert_ne by done. intros Hr. specialize (Ha r c Hr). lia.
    + intros u' ref Hr. destruct (Hb u' ref Hr) as (c & Hcr & Hrest).
      specialize (Ha ref c Hcr). rewrite lookup_insert_ne by lia. eauto.
    + intros ref c. destruct (decide (ref = next_ref st)) as [->|Hne].
      * rewrite lookup_insert_eq. intros [= <-]. done.
      * rewrite lookup_insert_ne by done. apply Hc.
Qed.

Lemma live_state_ok_disconnect evs u st :
  closures_below st -> live_state_ok evs st -> live_state_ok evs (disconnectLive evs u st).
Proof.
  intros Hcb (Ha & Hb & Hc). unfold disconnectLive, getLive.
  destruct (live_map st !! u) as [ref|] eqn:Hu; [|by split; [|split]].
  destruct (conns st !! ref) as [c|] eqn:Hcr; [|by split; [|split]].
  set (c1 := mkConn (c_user c) (c_room c) (c_handlers c) false (S (c_disconnects c))).
  set (st3 := emit_ev "tiktok:disconnected" u (c_room c)
                (set_live_map (delete u (live_map (set_conn ref c1 st))) (set_conn ref c1 st))).
  destruct (fold_conn_off_noop evs ref c1 st3) as (H1 & H2 & _ & _ & H5).
  { cbn. by rewrite lookup_insert_eq. }
  { intros p Hp. cbn. by apply (Hcb ref c). }
  destruct (Hb u ref Hu) as (c0 & Hc0 & Hcu & _). rewrite Hcr in Hc0. injection Hc0 as <-.
  unfold live_state_ok. rewrite H1, H2, H5. cbn. split; [|split].
  - intros r c'. destruct (decide (r = ref)) as [->|Hne].
    + intros _. by apply (Ha ref c).
    + rewrite lookup_insert_ne by done. apply Ha.
  - intros u' ref'. destruct (decide (u' = u)) as [->|Hne]; [by rewrite lookup_delete_eq|].
    rewrite lookup_delete_ne by done. intros Hr.
    destruct (Hb u' ref' Hr) as (c' & Hc' & Hu' & Hrest).
    rewrite lookup_insert_ne; [eauto|]. intros ->. congruence.
  - intros r c'. destruct (decide (r = ref)) as [->|Hne].
    + rewrite lookup_insert_eq. intros [= <-]. done.
    + rewrite lookup_insert_ne by done. intros Hr Hcon.
      specialize (Hc r c' Hr Hcon). rewrite lookup_delete_ne; [done|].
      intros Heq. congruence.
Qed.

Lemma live_state_ok_lost evs ref st :
  live_state_ok evs st -> live_state_ok evs (conn_lost ref st).
Proof.
  intros (Ha & Hb & Hc). unfold conn_lost.
  destruct (conns st !! ref) as [c|] eqn:Hcr; [|by split; [|split]].
  unfold live_state_ok. cbn. split; [|split].
  - intros r c'. destruct (decide (r = ref)) as [->|Hne].
    + intros _. by apply (Ha ref c).
    + rewrite lookup_insert_ne by done. apply Ha.
  - intros u' ref' Hr. destruct (Hb u' ref' Hr) as (c' & Hc' & Hu' & Hh).
    destruct (decide (ref' = ref)) as [->|Hne].
    + rewrite lookup_insert_eq. eexists. split; [done|]. cbn.
      rewrite Hcr in Hc'. by injection Hc' as ->.
    + rewrite lookup_insert_ne by done. eauto.
  - intros r c'. destruct (decide (r = ref)) as [->|Hne].
    + rewrite lookup_insert_eq. intros [= <-]. done.
    + rewrite lookup_insert_ne by done. apply Hc.
Qed.

Lemma live_state_ok_apply evs o st :
  closures_below st -> live_state_ok evs st -> live_state_ok evs (apply_top evs o st).
Proof.
  intros Hcb H. destruct o as [u o|u|sock u o| |ref ev|ref]; cbn.
  - by apply live_state_ok_create_if.
  - by apply live_state_ok_disconnect.
  - unfold live_tiktok_handler.
    pose proof (live_state_ok_create_if evs u o st H) as H1.
    destruct (createLiveIfNotExist evs u o st) as [[]st1]; [|done].
    destruct H1 as (Ha & Hb & Hc). by split; [|split].
  - done.
  - destruct (conn_fire_state ref ev st) as (H1 & H2 & H3 & _ & _).
    destruct H as (Ha & Hb & Hc). unfold live_state_ok. rewrite H1, H2, H3. done.
  - by apply live_state_ok_lost.
Qed.

Lemma live_state_ok_trun evs ops : live_state_ok evs (trun evs ops).
Proof.
  unfold trun. pose proof (live_state_ok_empty evs) as H0.
  assert (Hb0 : closures_below tstate_empty).
  { intros r c p. cbn. by rewrite lookup_empty. }
  revert H0 Hb0. generalize tstate_empty.
  induction ops as [|o ops IH]; intros st H Hb; cbn; [done|].
  apply IH; [by apply live_state_ok_apply|by apply closures_below_apply].
Qed.

Lemma length_filter_insert (P : conn -> Prop) `{!forall c, Decision (P c)}
    (m : gmap nat conn) i x :
  m !! i = None ->
  length (filter P (map snd (map_to_list (<[i := x]> m))))
  = (if decide (P x) then 1 else 0) + length (filter P (map snd (map_to_list m))).
Proof.
  intros Hi.
  rewrite (Permutation_length (filter_Permutation P _ _
             (Permutation_map snd (map_to_list_insert m i x Hi)))).
  cbn [map]. rewrite filter_cons. repeat case_decide; cbn [length]; first [lia | contradiction].
Qed.

Lemma count_zero (P : conn -> Prop) `{!forall c, Decision (P c)} (m : gmap nat conn) :
  (forall k c, m !! k = Some c -> ~ P c) ->
  length (filter P (map snd (map_to_list m))) = 0.
Proof.
  induction m as [|i x m Hi IH] using map_ind; intros HK.
  - by rewrite map_to_list_empty.
  - rewrite length_filter_insert by done. case_decide as Hx.
    + exfalso. apply (HK i x); [by rewrite lookup_insert_eq|done].
    + rewrite IH; [done|]. intros k c Hk. apply (HK k c).
      rewrite lookup_insert_ne; [done|]. intros ->. congruence.
Qed.

Lemma count_le1 (P : conn -> Prop) `{!forall c, Decision (P c)} (m : gmap nat conn) ref :
  (forall k c, m !! k = Some c -> P c -> k = ref) ->
  length (filter P (map snd (map_to_list m))) <= 1.
Proof.
  induction m as [|i x m Hi IH] using map_ind; intros HK.
  - rewrite map_to_list_empty. cbn. lia.
  - rewrite length_filter_insert by done. case_decide as Hx.
    + assert (i = ref) as -> by (apply (HK i x); [by rewrite lookup_insert_eq|done]).
      rewrite count_zero; [lia|]. intros k c Hk Hp.
      assert (k = ref) as -> by (apply (HK k c); [|done]; rewrite lookup_insert_ne;
                                 [done|intros ->; congruence]).
      congruence.
    + apply IH. intros k c Hk. apply (HK k c).
      rewrite lookup_insert_ne; [done|]. intros ->. congruence.
Qed.

Lemma connected_count_ok evs u st :
  live_state_ok evs st ->
  connected_count u st <= 1 /\
  (forall ref c, conns st !! ref = Some c -> c_user c = u -> c_connected c = true ->
     getLive u st = Some ref).
Proof.
  intros (Ha & Hb & Hc). unfold connected_count, getLive.
  split; [|intros ref c Hcr <- Hcc; by apply Hc].
  destruct (live_map st !! u) as [ref|] eqn:Hu.
  - apply (count_le1 _ _ ref). intros k c Hk [Huk Hck].
    specialize (Hc k c Hk Hck). rewrite Huk in Hc. congruence.
  - rewrite count_zero; [lia|].
    intros k c Hk [Huk Hck]. specialize (Hc k c Hk Hck). congruence.
Qed.




Lemma disconnect_live_absent evs u st :
  live_map st !! u = None -> disconnectLive evs u st = st.
Proof. intros Hu. unfold disconnectLive, getLive. by rewrite Hu. Qed.

Lemma listeners_create_if evs u o st :
  listeners (createLiveIfNotExist evs u o st).2 = listeners st.
Proof.
  unfold createLiveIfNotExist. destruct (live_map st !! u); [done|].
  pose proof (listeners_create_live evs u o st) as HL.
  destruct (createLive evs u o st) as [[c|] st']; cbn in *; done.
Qed.

(** ** The hub and the handlers of [src/index.ts] *)

Lemma decode_encode e : decode (encode e) = Some e.
Proof. destruct e as [ev [d|]]; unfold decode, encode; by rewrite json_parse_stringify. Qed.

Lemma on_open_socket h id ev lbl hs :
  sockets h !! id = Some (mkSocket true hs) ->
  sockets (on id ev lbl h) = <[id := mkSocket true (hs ++ [(ev, lbl)])]> (sockets h) /\
  rooms (on id ev lbl h) = rooms h /\ outbox (on id ev lbl h) = outbox h /\
  fired (on id ev lbl h) = fired h.
Proof. intros Hs. unfold on. by rewrite Hs. Qed.

End ExtraFacts.

Module Extras.
Import Codec Hub App Tiktok HubFacts CodecFacts AppFacts TiktokFacts ExtraFacts.

(** ** [src/index.ts] *)



(** X2: the [private-message] handler throws (the destructuring
    [TypeError]) when its argument is [undefined] or [null]; for any other
    argument that is not an object with a [targetSocketId] key (a string, a
    number, an array, as [emit('private-message', id, msg)] passes), it
    looks up [undefined] and writes one [error] envelope naming
    [undefined] to the sender, and nothing else. *)
Theorem private_message_bad_argument (h : hub) (s : string) (arg : option json) :
  (arg = None \/ arg = Some JNull -> private_message_handler s arg h = None) /\
  (forall v, arg = Some v -> v <> JNull ->
     (forall kvs, v = JObj kvs -> obj_get "targetSocketId" kvs = None) ->
     is_open h s = true ->
     private_message_handler s arg h
     = Some (send_frames h
               [(s, encode (mkEnvelope "error"
                              (Some (JStr "User undefined not found or disconnected."))))])).
Proof.
  split.
  - by intros [-> | ->].
  - intros v -> Hn Hobj Ho. unfold private_message_handler.
    assert (Hf : match v with
                 | JNull => None
                 | JObj kvs => Some (obj_get "targetSocketId" kvs, obj_get "message" kvs)
                 | _ => Some (None, None)
                 end = Some (None, match v with JObj kvs => obj_get "message" kvs | _ => None end)).
    { destruct v as [| | | | |kvs]; try done. by rewrite (Hobj kvs eq_refl). }
    rewrite Hf. cbn. by rewrite emit_open.
Qed.

Lemma private_message_bad_argument_witness :
  private_message_handler "sock-0" (Some (JStr "fake-id")) (run [OpOpen])
  = Some (send_frames (run [OpOpen])
            [("sock-0", encode (mkEnvelope "error"
                                  (Some (JStr "User undefined not found or disconnected."))))]).
Proof.
  apply (proj2 (private_message_bad_argument (run [OpOpen]) "sock-0" (Some (JStr "fake-id")))
           (JStr "fake-id") eq_refl).
  - discriminate.
  - discriminate.
  - reflexivity.
Defined.

(** X3: the connection hook run on a newly registered socket puts it in
    ['general'] and in no other room (other rooms unchanged), registers the
    five handlers in source order, writes no frame, and a later close of
    the transport fires exactly its one [disconnect] handler. *)
Theorem connection_hook_effects (ops : list op) :
  let '(h1, id) := handle_open (run ops) in
  let h2 := connection_hook id h1 in
  (forall r, id ∈ members h2 r <-> r = "general") /\
  members h2 "general" = {[id]} ∪ members (run ops) "general" /\
  (forall r, r <> "general" -> members h2 r = members (run ops) r) /\
  sockets h2 !! id = Some (mkSocket true
    [("message", lbl_message); ("join-room", lbl_join_room);
     ("private-message", lbl_private_message); ("live:tiktok", lbl_live_tiktok);
     ("disconnect", lbl_disconnect)]) /\
  outbox h2 = outbox (run ops) /\
  fired (handle_close id h2) = fired h2 ++ [(id, lbl_disconnect)].
Proof.
  destruct (run_lifecycle_inv ops) as [Hfr _].
  pose proof (run_members_registered ops) as Hreg.
  set (h := run ops) in *.
  assert (Hnone : sockets h !! sock_id (next_id h) = None) by (apply Hfr; lia).
  assert (Hnm : forall r, sock_id (next_id h) ∉ members h r).
  { intros r Hm. destruct (members_lookup h r _ Hm) as (ms & Hr & Hm').
    specialize (Hreg r ms _ Hr Hm'). unfold is_open in Hreg. by rewrite Hnone in Hreg. }
  unfold handle_open. set (id := sock_id (next_id h)) in *.
  set (h1 := mkHub _ _ _ _ _).
  assert (Ho1 : is_open h1 id = true) by (unfold is_open; cbn; by rewrite lookup_insert_eq).
  set (hj := join id "general" h1).
  assert (Hmj : forall r, members hj r =
            if decide (r = "general") then {[id]} ∪ members h "general" else members h r)
    by (intros r; unfold hj; by rewrite members_join).
  assert (Hsj : sockets hj !! id = Some (mkSocket true [])).
  { unfold hj, join. rewrite Ho1. cbn. by rewrite lookup_insert_eq. }
  unfold connection_hook.
  destruct (on_open_socket hj id "message" lbl_message [] Hsj) as (S1 & R1 & O1 & F1).
  set (g1 := on id "message" lbl_message hj) in *.
  assert (Hs1 : sockets g1 !! id = Some (mkSocket true [("message", lbl_message)]))
    by (rewrite S1; by rewrite lookup_insert_eq).
  destruct (on_open_socket g1 id "join-room" lbl_join_room _ Hs1) as (S2 & R2 & O2 & F2).
  set (g2 := on id "join-room" lbl_join_room g1) in *.
  assert (Hs2 : sockets g2 !! id = Some (mkSocket true
             [("message", lbl_message); ("join-room", lbl_join_room)]))
    by (rewrite S2; by rewrite lookup_insert_eq).
  destruct (on_open_socket g2 id "private-message" lbl_private_message _ Hs2)
    as (S3 & R3 & O3 & F3).
  set (g3 := on id "private-message" lbl_private_message g2) in *.
  assert (Hs3 : sockets g3 !! id = Some (mkSocket true
             [("message", lbl_message); ("join-room", lbl_join_room);
              ("private-message", lbl_private_message)]))
    by (rewrite S3; by rewrite lookup_insert_eq).
  destruct (on_open_socket g3 id "live:tiktok" lbl_live_tiktok _ Hs3) as (S4 & R4 & O4 & F4).
  set (g4 := on id "live:tiktok" lbl_live_tiktok g3) in *.
  assert (Hs4 : sockets g4 !! id = Some (mkSocket true
             [("message", lbl_message); ("join-room", lbl_join_room);
              ("private-message", lbl_private_message); ("live:tiktok", lbl_live_tiktok)]))
    by (rewrite S4; by rewrite lookup_insert_eq).
  destruct (on_open_socket g4 id "disconnect" lbl_disconnect _ Hs4) as (S5 & R5 & O5 & F5).
  set (g5 := on id "disconnect" lbl_disconnect g4) in *.
  assert (Hs5 : sockets g5 !! id = Some (mkSocket true
             [("message", lbl_message); ("join-room", lbl_join_room);
              ("private-message", lbl_private_message); ("live:tiktok", lbl_live_tiktok);
              ("disconnect", lbl_disconnect)]))
    by (rewrite S5; by rewrite lookup_insert_eq).
  assert (Hm5 : forall r, members g5 r = members hj r).
  { intros r. unfold members. by rewrite R5, R4, R3, R2, R1. }
  split; [|split; [|split; [|split; [|split]]]].
  - intros r. rewrite Hm5, Hmj. case_decide as Hr.
    + split; [done|intros _]. apply elem_of_union_l, elem_of_singleton. done.
    + split; [intros Hm; by destruct (Hnm r Hm)|intros ->; by destruct Hr].
  - by rewrite Hm5, Hmj.
  - intros r Hr. rewrite Hm5, Hmj. by case_decide.
  - done.
  - change (outbox g5 = outbox h). rewrite O5, O4, O3, O2, O1. unfold hj.
    rewrite outbox_join. done.
  - change (fired (handle_close id g5) = fired g5 ++ [(id, lbl_disconnect)]).
    unfold handle_close. rewrite Hs5. done.
Qed.

(** ** [TestClient] of [src/test/ws.test.ts] *)

(** X4: [TestClient.emit] sends nothing while not connected; connected,
    it sends a frame that decodes to its event with [data] the array of
    its arguments, so the server's dispatch hands the handler exactly
    those arguments, a single one included. *)
Theorem test_client_emit_roundtrip (event : string) (args : list json) :
  test_client_emit false event args = None /\
  exists f, test_client_emit true event args = Some f /\
    decode f = Some (mkEnvelope event (Some (JArr args))) /\
    option_map (fun e => dispatch_args (ev_data e)) (decode f) = Some args.
Proof.
  split; [done|]. eexists. split; [reflexivity|].
  assert (Hd : decode (stringify (JObj [("event", JStr event); ("data", JArr args)]))
               = Some (mkEnvelope event (Some (JArr args)))).
  { exact (decode_encode (mkEnvelope event (Some (JArr args)))). }
  rewrite Hd. done.
Qed.

(** ** [src/platforms/tiktoklive.ts] *)

(** X5: when [connect()] resolves with a room id, [createLive(u)]
    resolves with a new connection object, leaves the other connections,
    CurrentLiveMap and the emitter's listeners as they were, emits one
    ['tiktok:connected'] for [u] with that room id, and leaves the new
    connection connected with one handler per entry of
    [TiktokEventsArray], in order, each a distinct closure numbered from
    [next_closure] on, so none registered before. *)
Theorem create_live_success (evs : list string) (u : string) (rid : Z) (st : tstate) :
  let '(r, st') := createLive evs u (Some rid) st in
  r = Resolved (next_ref st) /\
  emitted st' = emitted st ++ [mkEmission "tiktok:connected" u (Some rid)] /\
  live_map st' = live_map st /\ listeners st' = listeners st /\
  (forall r', r' <> next_ref st -> conns st' !! r' = conns st !! r') /\
  exists hs, conns st' !! next_ref st = Some (mkConn u (Some rid) hs true 0) /\
    map fst hs = evs /\ NoDup (map snd hs) /\
    (forall p, p ∈ hs -> next_closure st <= p.2 < next_closure st').
Proof.
  rewrite create_live_eq. cbn.
  split; [done|]. split; [done|]. split; [done|]. split; [done|].
  split; [intros r' Hr; by rewrite lookup_insert_ne|].
  eexists. split; [by rewrite lookup_insert_eq|].
  rewrite map_fst_zip_seq, map_snd_zip_seq. split; [done|]. split; [apply NoDup_seq|].
  intros p Hp.
  assert (Hs : p.2 ∈ seq (next_closure st) (length evs)).
  { rewrite <- (map_snd_zip_seq evs (next_closure st)).
    apply list_elem_of_In, in_map, list_elem_of_In. done. }
  apply elem_of_seq in Hs. lia.
Qed.

(** X6: [disconnectLive] does nothing for a username with no stored
    connection, and calling it twice is calling it once: the second call
    neither disconnects nor emits again. *)
Theorem disconnect_live_idempotent (evs : list string) (u : string) (st : tstate) :
  (live_map st !! u = None -> disconnectLive evs u st = st) /\
  disconnectLive evs u (disconnectLive evs u st) = disconnectLive evs u st.
Proof.
  split; [apply disconnect_live_absent|].
  assert (H : live_map (disconnectLive evs u st) !! u = None \/ disconnectLive evs u st = st).
  { unfold disconnectLive, getLive.
    destruct (live_map st !! u) as [ref|]; [|by right].
    destruct (conns st !! ref); [|by right]. left.
    rewrite fold_conn_off_live_map. cbn. apply lookup_delete_eq. }
  destruct H as [H|H]; [by apply disconnect_live_absent|]. by rewrite !H.
Qed.

Lemma disconnect_live_idempotent_witness :
  disconnectLive ["chat"] "bob" (trun ["chat"] [TCreate "alice" (Some 5%Z)])
  = trun ["chat"] [TCreate "alice" (Some 5%Z)].
Proof.
  apply (proj1 (disconnect_live_idempotent ["chat"] "bob" (trun ["chat"] [TCreate "alice" (Some 5%Z)]))).
  reflexivity.
Defined.

(** X7: after any sequence of [createLiveIfNotExist], [disconnectLive] and
    [live:tiktok] calls, each run to completion, interleaved with events the
    library fires on connections and connections dropping on their own,
    every connection stored in CurrentLiveMap belongs to its username and
    carries one handler per webcast event, connection references are never
    reused, and a connected connection is always the one stored for its
    username. *)
Theorem live_map_consistent (evs : list string) (ops : list top) :
  live_state_ok evs (trun evs ops).
Proof. apply live_state_ok_trun. Qed.

(** X8: when calls do not overlap, at most one connection per username is
    connected, and a connected one is the one [getLive] returns (a stored
    connection may still have dropped on its own). *)
Theorem sequential_at_most_one_connected (evs : list string) (ops : list top) (u : string) :
  connected_count u (trun evs ops) <= 1 /\
  (forall ref c, conns (trun evs ops) !! ref = Some c -> c_user c = u ->
     c_connected c = true -> getLive u (trun evs ops) = Some ref).
Proof. apply (connected_count_ok evs), live_state_ok_trun. Qed.



(** ** The [live:tiktok] handler of [src/index.ts] *)

(** X10: each [live:tiktok] invocation that resolves adds the socket once
    more to the targets of every later ['tiktok:connected'],
    ['tiktok:event'] and ['tiktok:disconnected'] emission for its username,
    and to no other emission: a socket that asks twice receives each event
    twice. *)
Theorem live_tiktok_forwarding (evs : list string) (sock u : string) (o : option Z)
    (st : tstate) (em : emission) :
  (live_tiktok_handler evs sock u o st).1 = Resolved tt ->
  forward_targets (listeners (live_tiktok_handler evs sock u o st).2) em =
  forward_targets (listeners st) em ++
    (if decide (em_user em = u /\
                em_name em ∈ ["tiktok:connected"; "tiktok:event"; "tiktok:disconnected"])
     then [sock] else []).
Proof.
  unfold live_tiktok_handler. pose proof (listeners_create_if evs u o st) as HL.
  destruct (createLiveIfNotExist evs u o st) as [[] st1]; [|done]. intros _. cbn.
  cbn in HL. rewrite HL. unfold forward_targets. rewrite <- !app_assoc, !filter_app, !map_app.
  f_equal. rewrite !filter_cons, filter_nil.
  destruct em as [n v r]; cbn.
  repeat case_decide; cbn; try done; exfalso; set_solver.
Qed.

Lemma live_tiktok_forwarding_witness :
  forward_targets
    (listeners (live_tiktok_handler ["chat"] "sock-0" "alice" (Some 5%Z)
                  (live_tiktok_handler ["chat"] "sock-0" "alice" (Some 5%Z) tstate_empty).2).2)
    (mkEmission "tiktok:event" "alice" None) = ["sock-0"; "sock-0"].
Proof.
  rewrite (live_tiktok_forwarding ["chat"] "sock-0" "alice" (Some 5%Z)
             (live_tiktok_handler ["chat"] "sock-0" "alice" (Some 5%Z) tstate_empty).2
             (mkEmission "tiktok:event" "alice" None) eq_refl).
  reflexivity.
Defined.



(** X12: once a connection is stored for [u], [createLiveIfNotExist(u)]
    resolves at once and changes nothing (no new connection, same map), and
    [getLive(u)] returns the stored one; after a call that resolves, [u] is
    stored, so calls that do not overlap share one connection. *)
Theorem create_live_if_not_exist_reuses (evs : list string) (u : string) :
  (forall st ref outcome, live_map st !! u = Some ref ->
     createLiveIfNotExist evs u outcome st = (Resolved tt, st) /\
     cline_start u st = (TaskDone (Resolved tt), st) /\
     getLive u st = Some ref) /\
  (forall st outcome, (createLiveIfNotExist evs u outcome st).1 = Resolved tt ->
     is_Some (getLive u (createLiveIfNotExist evs u outcome st).2)).
Proof.
  split.
  - intros st ref outcome Hm. unfold createLiveIfNotExist, cline_start, getLive.
    by rewrite Hm.
  - intros st outcome. unfold createLiveIfNotExist, getLive.
    destruct (live_map st !! u) eqn:Hm; [intros _; cbn; by rewrite Hm|].
    destruct (createLive evs u outcome st) as [[c|] st']; cbn; [|done].
    intros _. rewrite lookup_insert_eq. by eexists.
Qed.

Lemma create_live_if_not_exist_reuses_witness :
  createLiveIfNotExist ["chat"] "alice" None
    (createLiveIfNotExist ["chat"] "alice" (Some 3%Z) tstate_empty).2
  = (Resolved tt, (createLiveIfNotExist ["chat"] "alice" (Some 3%Z) tstate_empty).2).
Proof.
  apply (proj1 (create_live_if_not_exist_reuses ["chat"] "alice")
           _ 0 None).
  reflexivity.
Defined.

End Extras.
